(** * golucene core/index: segment commit record, postings backing store
      and per-field format dispatch

    A shallow embedding of
      - core/index/segmentInfoPerCommit.go   (module [CommitInfo])
      - core/index/invertedDocConsumerPerField.go (module [BytesStart])
      - core/index/perfield.go               (modules [PostingsWriter],
                                              [PostingsReader], [DocValuesReader])
    Go methods that mutate their receiver become functions returning the
    new receiver; calls that can return an error or panic return an
    [outcome]. *)

From stdpp Require Import base gmap strings list fin_maps pretty.
From Stdlib Require Import ZArith Lia.

Local Open Scope Z_scope.

(** ** Go values and control flow *)

Module Go.

(** [int64] (and [int], taken as 64 bits wide) is a [Z] kept in
    [min_int64, max_int64]; arithmetic wraps around. *)
Definition max_int64 : Z := 9223372036854775807.
Definition min_int64 : Z := -9223372036854775808.

Definition wrap64 (z : Z) : Z := (z + 2^63) mod 2^64 - 2^63.

Definition in_int64 (z : Z) : Prop := min_int64 <= z <= max_int64.

(** The Go [error] value; [nil] is [None] where an optional error is
    carried. *)
Definition error : Type := string.

(** Why a goroutine panicked. *)
Inductive panic_cause : Type :=
| NotImplementedYet                 (* panic("not implemented yet") *)
| AssertionFailed (what : string)   (* assert / assert2 *)
| CannotEmbed (fieldName : string)  (* fullSegmentSuffix *)
| NilDereference.                   (* method call on a nil interface *)

(** Result of a call: normal return, a returned error, or a panic. *)
Inductive outcome (A : Type) : Type :=
| Ok (a : A)
| Err (e : error)
| Panic (c : panic_cause).
Arguments Ok {A} a.
Arguments Err {A} e.
Arguments Panic {A} c.

Definition bind {A B} (m : outcome A) (k : A -> outcome B) : outcome B :=
  match m with
  | Ok a => k a
  | Err e => Err e
  | Panic c => Panic c
  end.

Definition is_panic {A} (m : outcome A) : Prop :=
  match m with Panic _ => True | _ => False end.

(** [assert2(ok, msg, ...)]: panics unless [ok]. *)
Definition assert2 (ok : bool) (what : string) : outcome unit :=
  if ok then Ok tt else Panic (AssertionFailed what).

Definition assert (ok : bool) : outcome unit := assert2 ok "".

End Go.

Notation "x <- m ;; k" := (Go.bind m (fun x => k))
  (at level 100, m at next level, right associativity, only parsing).

(** ** The segment commit record (segmentInfoPerCommit.go) *)

Module CommitInfo.
Import Go.

(** Modelled from the spec: [model.SegmentInfo] and [store.Directory]
    are declared outside the sources; the record keeps what the commit
    record reads from them, the document count ([DocCount()]) and the
    directory's [FileLength(name) -> (bytes, error)]. *)
Record SegmentInfo : Type := {
  docCount : Z;
  Dir : string -> Z + error
}.

Definition DocCount (i : SegmentInfo) : Z := docCount i.

Record SegmentCommitInfo : Type := {
  info : SegmentInfo;
  delCount : Z;
  delGen : Z;
  nextWriteDelGen : Z;
  sizeInBytes : Z;
  BufferedUpdatesGen : Z
}.

(** [info.delGen, info.nextWriteDelGen = info.nextWriteDelGen, info.delGen+1]
    is one tuple assignment: both right-hand sides are evaluated on the
    receiver as it was at entry. *)
Definition advanceDelGen (si : SegmentCommitInfo) : SegmentCommitInfo :=
  {| info := info si;
     delCount := delCount si;
     delGen := nextWriteDelGen si;
     nextWriteDelGen := wrap64 (delGen si + 1);
     sizeInBytes := -1;
     BufferedUpdatesGen := BufferedUpdatesGen si |}.

Definition advanceNextWriteDelGen (si : SegmentCommitInfo) : SegmentCommitInfo :=
  {| info := info si;
     delCount := delCount si;
     delGen := delGen si;
     nextWriteDelGen := wrap64 (nextWriteDelGen si + 1);
     sizeInBytes := sizeInBytes si;
     BufferedUpdatesGen := BufferedUpdatesGen si |}.

Definition set_sizeInBytes (v : Z) (si : SegmentCommitInfo) : SegmentCommitInfo :=
  {| info := info si;
     delCount := delCount si;
     delGen := delGen si;
     nextWriteDelGen := nextWriteDelGen si;
     sizeInBytes := v;
     BufferedUpdatesGen := BufferedUpdatesGen si |}.

(** [Files()] opens with [panic("not implemented yet")]; the statements
    after it are never reached. *)
Definition Files (si : SegmentCommitInfo) : outcome (list string) :=
  Panic NotImplementedYet.

(** The [for _, fileName := range files] loop of [SizeInBytes]: the
    running sum, or the first error, together with the names passed to
    [FileLength], in call order. *)
Fixpoint sumFileLengths (dir : string -> Z + error) (files : list string)
    (sum : Z) : (Z + error) * list string :=
  match files with
  | [] => (inl sum, [])
  | fileName :: rest =>
      match dir fileName with
      | inr err => (inr err, [fileName])
      | inl d =>
          let '(r, asked) := sumFileLengths dir rest (wrap64 (sum + d)) in
          (r, fileName :: asked)
      end
  end.

(** [SizeInBytes] over a given implementation of the [Files()] call.
    The triple is the call's result, the receiver afterwards and the
    directory queries made. An error return is Go's [(0, err)]. *)
Definition SizeInBytesWith (files : SegmentCommitInfo -> outcome (list string))
    (si : SegmentCommitInfo) : outcome Z * SegmentCommitInfo * list string :=
  if sizeInBytes si =? -1 then
    match files si with
    | Ok fs =>
        match sumFileLengths (Dir (info si)) fs 0 with
        | (inl sum, asked) => (Ok sum, set_sizeInBytes sum si, asked)
        | (inr err, asked) => (Err err, si, asked)
        end
    | Err e => (Err e, si, [])
    | Panic c => (Panic c, si, [])
    end
  else (Ok (sizeInBytes si), si, []).

Definition SizeInBytes (si : SegmentCommitInfo)
    : outcome Z * SegmentCommitInfo * list string :=
  SizeInBytesWith Files si.

(** The exact (unwrapped) total of the lengths a directory reports for
    a list of files, counting a failing query as 0; used to state what
    the loop computes. *)
Definition totalLength (dir : string -> Z + error) (files : list string) : Z :=
  foldr (fun f acc => match dir f with inl d => d + acc | inr _ => acc end) 0 files.

Definition setBufferedUpdatesGen (v : Z) (si : SegmentCommitInfo) : SegmentCommitInfo :=
  {| info := info si;
     delCount := delCount si;
     delGen := delGen si;
     nextWriteDelGen := nextWriteDelGen si;
     sizeInBytes := -1;
     BufferedUpdatesGen := v |}.

Definition HasDeletions (si : SegmentCommitInfo) : bool :=
  negb (delGen si =? -1).

Definition set_delCount (n : Z) (si : SegmentCommitInfo) : SegmentCommitInfo :=
  {| info := info si;
     delCount := n;
     delGen := delGen si;
     nextWriteDelGen := nextWriteDelGen si;
     sizeInBytes := sizeInBytes si;
     BufferedUpdatesGen := BufferedUpdatesGen si |}.

Definition setDelCount (n : Z) (si : SegmentCommitInfo) : outcome SegmentCommitInfo :=
  _ <- assert2 ((n >=? 0) && (n <=? DocCount (info si)))
         ("invalid delCount=" +:+ pretty n +:+ " (docCount="
            +:+ pretty (DocCount (info si)) +:+ ")") ;;
  Ok (set_delCount n si).

End CommitInfo.

(** ** The postings backing-store adapter (invertedDocConsumerPerField.go) *)

Module BytesStart.
Import Go.

(** [ParallelPostingsArray]; [bytesPerPosting] is what the embedded
    [PostingsArray] interface answers for this array. *)
Record ParallelPostingsArray : Type := {
  bytesPerPosting : Z;
  size : Z;
  textStarts : list Z;
  intStarts : list Z;
  byteStarts : list Z
}.

Definition newParallelPostingsArray (spiBytesPerPosting : Z) (size : Z)
    : ParallelPostingsArray :=
  {| bytesPerPosting := spiBytesPerPosting;
     size := size;
     textStarts := replicate (Z.to_nat size) 0;
     intStarts := replicate (Z.to_nat size) 0;
     byteStarts := replicate (Z.to_nat size) 0 |}.

(** What [PostingsBytesStartArray] reaches through its two fields: the
    per-field builder's [postingsArray] pointer ([None] is [nil]; an
    allocated array carries the serial number of the allocation that
    made it, its identity), the shared [bytesUsed] counter, and how many
    arrays the consumer has been asked for. *)
Record state : Type := {
  postingsArray : option (nat * ParallelPostingsArray);
  bytesUsed : Z;
  allocations : nat
}.

(** A slice result: [None] is [nil], otherwise the identity of the
    array the column belongs to and the column. *)
Definition column : Type := option (nat * list Z).

Definition footprint (arr : ParallelPostingsArray) : Z :=
  wrap64 (size arr * bytesPerPosting arr).

Section Adapter.
(** [perField.consumer.createPostingsArray], supplied by the codec
    consumer; the first argument numbers the calls, so that each call
    may answer with an array of its own. *)
Variable createPostingsArray : nat -> Z -> ParallelPostingsArray.

Definition Init (st : state) : column * state :=
  match postingsArray st with
  | None =>
      let arr := createPostingsArray (allocations st) 2 in
      let st' := {| postingsArray := Some (allocations st, arr);
                    bytesUsed := wrap64 (bytesUsed st + footprint arr);
                    allocations := S (allocations st) |} in
      (Some (allocations st, textStarts arr), st')
  | Some (id, arr) => (Some (id, textStarts arr), st)
  end.

Definition Clear (st : state) : column * state :=
  match postingsArray st with
  | Some (_, arr) =>
      (None, {| postingsArray := None;
                bytesUsed := wrap64 (bytesUsed st + wrap64 (- footprint arr));
                allocations := allocations st |})
  | None => (None, st)
  end.

(** [n] further [Init] calls in a row, keeping the last result. *)
Fixpoint InitAgain (n : nat) (r : column) (st : state) : column * state :=
  match n with
  | O => (r, st)
  | S n' => let '(r', st') := Init st in InitAgain n' r' st'
  end.
End Adapter.

End BytesStart.

(** ** Field metadata *)

Module Field.

(** Modelled from the spec: [model.FieldInfo] is declared outside the
    sources; a field's metadata record carries its name, whether it is
    indexed, whether it has doc values, and the attribute bag, a mapping
    from string key to string value. [Attribute] answers the empty string
    for a key that was never written; [PutAttribute] writes and answers
    the value the key had before (the empty string if none). *)
Record FieldInfo : Type := {
  Name : string;
  indexed : bool;
  docValues : bool;
  attributes : gmap string string
}.

Definition IsIndexed (fi : FieldInfo) : bool := indexed fi.

Definition HasDocValues (fi : FieldInfo) : bool := docValues fi.

Definition Attribute (key : string) (fi : FieldInfo) : string :=
  default "" (attributes fi !! key).

Definition PutAttribute (key value : string) (fi : FieldInfo) : string * FieldInfo :=
  (default "" (attributes fi !! key),
   {| Name := Name fi;
      indexed := indexed fi;
      docValues := docValues fi;
      attributes := <[key := value]> (attributes fi) |}).

Definition PER_FIELD_FORMAT_KEY : string := "PerFieldPostingsFormat.format".
Definition PER_FIELD_SUFFIX_KEY : string := "PerFieldPostingsFormat.suffix".

End Field.

(** ** Write side of the per-field dispatcher (perfield.go) *)

Module PostingsWriter.
Import Go Field.

(** A [PostingsFormat] value: which instance it is (what the
    [map[PostingsFormat]...] key compares) and what its [Name()]
    answers. *)
Record PostingsFormat : Type := {
  instance : nat;
  formatName : string
}.

(** The opened consumer is named by its position in the list of
    consumers opened so far. *)
Record FieldsConsumerAndSuffix : Type := {
  consumer : nat;
  suffix : Z
}.

Record PerFieldPostingsWriter : Type := {
  postingsFormatForField : string -> option PostingsFormat;
  formats : gmap nat FieldsConsumerAndSuffix;
  suffixes : gmap string Z;
  SegmentSuffix : string
}.

Definition newPerFieldPostingsWriter (policy : string -> option PostingsFormat)
    (segmentSuffix : string) : PerFieldPostingsWriter :=
  {| postingsFormatForField := policy;
     formats := ∅;
     suffixes := ∅;
     SegmentSuffix := segmentSuffix |}.

Definition set_suffixes (m : gmap string Z) (w : PerFieldPostingsWriter)
    : PerFieldPostingsWriter :=
  {| postingsFormatForField := postingsFormatForField w;
     formats := formats w;
     suffixes := m;
     SegmentSuffix := SegmentSuffix w |}.

Definition set_formats (m : gmap nat FieldsConsumerAndSuffix)
    (w : PerFieldPostingsWriter) : PerFieldPostingsWriter :=
  {| postingsFormatForField := postingsFormatForField w;
     formats := m;
     suffixes := suffixes w;
     SegmentSuffix := SegmentSuffix w |}.

Definition _suffix (formatName suffix : string) : string :=
  formatName +:+ "_" +:+ suffix.

Definition fullSegmentSuffix (fieldName outerSegmentSuffix segmentSuffix : string)
    : outcome string :=
  if (String.length outerSegmentSuffix =? 0)%nat then Ok segmentSuffix
  else Panic (CannotEmbed fieldName).

(** The per-field term acceptor a consumer hands back for a field. *)
Record TermsConsumer : Type := {
  acceptor_of : nat;
  acceptor_field : string
}.

(** Everything [addField] leaves behind: its result, the writer, the
    segment suffixes of the consumers opened so far (in order of
    opening), and the field record it was handed. *)
Record effect : Type := {
  result : outcome TermsConsumer;
  writer : PerFieldPostingsWriter;
  opened : list string;
  field_after : FieldInfo
}.

Section Writer.
(** [format.FieldsConsumer(state)] for the given segment suffix: [None]
    when a consumer is opened, the error otherwise. *)
Variable FieldsConsumer : PostingsFormat -> string -> option error.
(** The opened consumer's own [addField]. *)
Variable consumerAddField : nat -> FieldInfo -> option error.

(** The tail of [addField], from the second [PutAttribute] on. *)
Definition routeTo (c : FieldsConsumerAndSuffix) (suffix : Z)
    (w : PerFieldPostingsWriter) (os : list string) (field : FieldInfo) : effect :=
  let '(previousValue, field2) :=
    PutAttribute PER_FIELD_SUFFIX_KEY (pretty suffix) field in
  match assert (String.eqb previousValue "") with
  | Ok _ =>
      {| result := match consumerAddField (consumer c) field2 with
                   | None => Ok {| acceptor_of := consumer c;
                                   acceptor_field := Name field2 |}
                   | Some err => Err err
                   end;
         writer := w; opened := os; field_after := field2 |}
  | Err e => {| result := Err e; writer := w; opened := os; field_after := field2 |}
  | Panic p => {| result := Panic p; writer := w; opened := os; field_after := field2 |}
  end.

Definition addField (w : PerFieldPostingsWriter) (os : list string)
    (field : FieldInfo) : effect :=
  match postingsFormatForField w (Name field) with
  | None =>
      {| result := Panic (AssertionFailed "invalid nil PostingsFormat");
         writer := w; opened := os; field_after := field |}
  | Some format =>
      let name := formatName format in
      let '(previousValue, field1) := PutAttribute PER_FIELD_FORMAT_KEY name field in
      if negb (String.eqb previousValue "") then
        {| result := Panic (AssertionFailed "");
           writer := w; opened := os; field_after := field1 |}
      else
        match formats w !! instance format with
        | None =>
            (* First time we are seeing this format; bump the suffix *)
            let suffix := match suffixes w !! name with
                          | None => 0
                          | Some s => wrap64 (s + 1)
                          end in
            let w1 := set_suffixes (<[name := suffix]> (suffixes w)) w in
            match fullSegmentSuffix (Name field1) (SegmentSuffix w)
                    (_suffix name (pretty suffix)) with
            | Ok segmentSuffix =>
                match FieldsConsumer format segmentSuffix with
                | Some err =>
                    {| result := Err err;
                       writer := w1; opened := os; field_after := field1 |}
                | None =>
                    let c := {| consumer := length os; suffix := suffix |} in
                    let w2 := set_formats (<[instance format := c]> (formats w1)) w1 in
                    routeTo c suffix w2 (os ++ [segmentSuffix]) field1
                end
            | Err e =>
                {| result := Err e; writer := w1; opened := os; field_after := field1 |}
            | Panic p =>
                {| result := Panic p; writer := w1; opened := os; field_after := field1 |}
            end
        | Some _ =>
            {| result := Panic NotImplementedYet;
               writer := w; opened := os; field_after := field1 |}
        end
  end.

End Writer.

End PostingsWriter.

(** ** Producers opened and closed while a reader is built *)

Module Producers.
Import Go.

(** Producers are named by their position in [opened], which keeps the
    segment suffix each was opened for; [closed] lists the producers on
    which [Close] has been called. *)
Record world : Type := {
  opened : list string;
  closed : list nat
}.

Definition open (segmentSuffix : string) (w : world) : nat * world :=
  (length (opened w),
   {| opened := opened w ++ [segmentSuffix]; closed := closed w |}).

(** [util.CloseWhileSuppressingError(items...)]: every item is closed,
    whatever the individual [Close] calls answer ([closeError]) is
    dropped. *)
Definition CloseWhileSuppressingError (closeError : nat -> option error)
    (items : list nat) (w : world) : world :=
  {| opened := opened w; closed := closed w ++ items |}.

(** A producer that was opened and never closed. *)
Definition leftOpen (w : world) (p : nat) : Prop :=
  (p < length (opened w))%nat /\ p ∉ closed w.

End Producers.

(** ** Read side of the per-field dispatcher: postings *)

Module PostingsReader.
Import Go Field Producers.

Record PerFieldPostingsReader : Type := {
  fields : gmap string nat;
  formats : gmap string nat
}.

Section Reader.
(** [LoadPostingsFormat(formatName).FieldsProducer(newReadState)] for the
    given segment suffix: [None] when a producer is opened, the error
    otherwise. [closeError] is what [Close] answers on a producer. *)
Variable FieldsProducer : string -> string -> option error.
Variable closeError : nat -> option error.

(** One round of the loop over [state.fieldInfos.Values]. *)
Definition visit (fi : FieldInfo) (ans : PerFieldPostingsReader) (w : world)
    : outcome unit * PerFieldPostingsReader * world :=
  if IsIndexed fi then
    let fieldName := Name fi in
    let formatName := Attribute PER_FIELD_FORMAT_KEY fi in
    if String.eqb formatName "" then (Ok tt, ans, w)
    else
      let suffix := Attribute PER_FIELD_SUFFIX_KEY fi in
      match assert (negb (String.eqb suffix "")) with
      | Ok _ =>
          let segmentSuffix := formatName +:+ "_" +:+ suffix in
          match formats ans !! segmentSuffix with
          | None =>
              match FieldsProducer formatName segmentSuffix with
              | Some err => (Err err, ans, w)
              | None =>
                  let '(fp, w') := open segmentSuffix w in
                  (Ok tt,
                   {| fields := <[fieldName := fp]> (fields ans);
                      formats := <[segmentSuffix := fp]> (formats ans) |},
                   w')
              end
          | Some fp =>
              (Ok tt,
               {| fields := <[fieldName := fp]> (fields ans);
                  formats := formats ans |},
               w)
          end
      | Err e => (Err e, ans, w)
      | Panic p => (Panic p, ans, w)
      end
  else (Ok tt, ans, w).

Fixpoint visitAll (fis : list FieldInfo) (ans : PerFieldPostingsReader) (w : world)
    : outcome unit * PerFieldPostingsReader * world :=
  match fis with
  | [] => (Ok tt, ans, w)
  | fi :: rest =>
      match visit fi ans w with
      | (Ok _, ans', w') => visitAll rest ans' w'
      | stop => stop
      end
  end.

(** The deferred function: unless [success] was set, close every
    producer in [ans.formats]. *)
Definition cleanup (ans : PerFieldPostingsReader) (w : world) : world :=
  CloseWhileSuppressingError closeError (map_to_list (formats ans)).*2 w.

(** On the error path Go returns [(fp, err)], [fp] being what the failing
    format handed back with its error; the dispatcher [ans] is returned
    only on success. *)
Definition newPerFieldPostingsReader (fieldInfos : list FieldInfo) (w : world)
    : outcome PerFieldPostingsReader * world :=
  match visitAll fieldInfos {| fields := ∅; formats := ∅ |} w with
  | (Ok _, ans, w') => (Ok ans, w')
  | (Err e, ans, w') => (Err e, cleanup ans w')
  | (Panic p, ans, w') => (Panic p, cleanup ans w')
  end.

Variable TermsOf : Type.
(** A producer's own [Terms(field)]; [None] is a nil [Terms]. *)
Variable producerTerms : nat -> string -> option TermsOf.

Definition Terms (r : PerFieldPostingsReader) (field : string) : option TermsOf :=
  match fields r !! field with
  | Some p => producerTerms p field
  | None => None
  end.

End Reader.

Arguments Terms {TermsOf} producerTerms r field.

End PostingsReader.

(** ** Read side of the per-field dispatcher: doc values *)

Module DocValuesReader.
Import Go Field Producers.

(** A value of [fields] can be a nil producer ([None]): the constructor
    stores [ans.formats[segmentSuffix]] whether or not that key is
    present. *)
Record PerFieldDocValuesReader : Type := {
  fields : gmap string (option nat);
  formats : gmap string nat
}.

Section Reader.
(** [LoadDocValuesProducer(formatName, newReadState)] for the given
    segment suffix: [None] when a producer is opened, the error
    otherwise. *)
Variable LoadDocValuesProducer : string -> string -> option error.

(** One round of the loop over [state.fieldInfos.Values]. The error of a
    failed load lives only in the [if] statement that declares it. *)
Definition visit (fi : FieldInfo) (ans : PerFieldDocValuesReader) (w : world)
    : PerFieldDocValuesReader * world :=
  if HasDocValues fi then
    let fieldName := Name fi in
    let formatName := Attribute PER_FIELD_FORMAT_KEY fi in
    if String.eqb formatName "" then (ans, w)
    else
      let suffix := Attribute PER_FIELD_SUFFIX_KEY fi in
      let segmentSuffix := formatName +:+ "_" +:+ suffix in
      let '(formats', w') :=
        match formats ans !! segmentSuffix with
        | None =>
            match LoadDocValuesProducer formatName segmentSuffix with
            | None =>
                let '(p, w') := open segmentSuffix w in
                (<[segmentSuffix := p]> (formats ans), w')
            | Some _ => (formats ans, w)
            end
        | Some _ => (formats ans, w)
        end in
      ({| fields := <[fieldName := formats' !! segmentSuffix]> (fields ans);
          formats := formats' |}, w')
  else (ans, w).

Fixpoint visitAll (fis : list FieldInfo) (ans : PerFieldDocValuesReader) (w : world)
    : PerFieldDocValuesReader * world :=
  match fis with
  | [] => (ans, w)
  | fi :: rest => let '(ans', w') := visit fi ans w in visitAll rest ans' w'
  end.

(** The deferred function closes [ans.formats] unless [success] was set;
    the loop has no exit that leaves it unset, so the constructor always
    answers [(&ans, nil)]. *)
Definition newPerFieldDocValuesReader (fieldInfos : list FieldInfo) (w : world)
    : outcome PerFieldDocValuesReader * world :=
  let '(ans, w') := visitAll fieldInfos {| fields := ∅; formats := ∅ |} w in
  (Ok ans, w').

Variables NumericDocValues BinaryDocValues SortedDocValues SortedSetDocValues : Type.
(** The producers' own query methods; [Ok None] is Go's [(nil, nil)]. *)
Variable producerNumeric : nat -> FieldInfo -> outcome (option NumericDocValues).
Variable producerBinary : nat -> FieldInfo -> outcome (option BinaryDocValues).
Variable producerSorted : nat -> FieldInfo -> outcome (option SortedDocValues).
Variable producerSortedSet : nat -> FieldInfo -> outcome (option SortedSetDocValues).

(** In each query, [p.M(field)] on a nil [p] found under the key panics. *)
Definition Numeric (dvp : PerFieldDocValuesReader) (field : FieldInfo)
    : outcome (option NumericDocValues) :=
  match fields dvp !! Name field with
  | Some (Some p) => producerNumeric p field
  | Some None => Panic NilDereference
  | None => Ok None
  end.

Definition Binary (dvp : PerFieldDocValuesReader) (field : FieldInfo)
    : outcome (option BinaryDocValues) :=
  match fields dvp !! Name field with
  | Some (Some p) => producerBinary p field
  | Some None => Panic NilDereference
  | None => Ok None
  end.

Definition Sorted (dvp : PerFieldDocValuesReader) (field : FieldInfo)
    : outcome (option SortedDocValues) :=
  match fields dvp !! Name field with
  | Some (Some p) => producerSorted p field
  | Some None => Panic NilDereference
  | None => Ok None
  end.

Definition SortedSet (dvp : PerFieldDocValuesReader) (field : FieldInfo)
    : outcome (option SortedSetDocValues) :=
  match fields dvp !! Name field with
  | Some (Some p) => producerSortedSet p field
  | Some None => Panic NilDereference
  | None => Ok None
  end.

End Reader.

Arguments Numeric {NumericDocValues} producerNumeric dvp field.
Arguments Binary {BinaryDocValues} producerBinary dvp field.
Arguments Sorted {SortedDocValues} producerSorted dvp field.
Arguments SortedSet {SortedSetDocValues} producerSortedSet dvp field.

End DocValuesReader.

(** ** Sample records used in the worked scenarios *)

Module Samples.
Import Go CommitInfo.

(** A ten-document segment in a directory where every file is 5 bytes. *)
Definition tenDocs : SegmentInfo :=
  {| docCount := 10; Dir := fun _ => inl 5 |}.

(** The same segment in a directory whose every length query fails. *)
Definition tenDocsBrokenDir : SegmentInfo :=
  {| docCount := 10; Dir := fun _ => inr "read error"%string |}.

Definition commitOf (i : SegmentInfo) (dg nw cache : Z) : SegmentCommitInfo :=
  {| info := i; delCount := 0; delGen := dg; nextWriteDelGen := nw;
     sizeInBytes := cache; BufferedUpdatesGen := 0 |}.

(** The initial state: no deletes yet, size not computed. *)
Definition fresh : SegmentCommitInfo := commitOf tenDocs (-1) 1 (-1).

(** The initial state over the failing directory. *)
Definition freshBrokenDir : SegmentCommitInfo := commitOf tenDocsBrokenDir (-1) 1 (-1).

(** A record whose size cache holds 42. *)
Definition sized42 : SegmentCommitInfo := commitOf tenDocs 1 2 42.

(** A consumer whose arrays cost 12 bytes per posting, and an adapter
    with no columns while 100 bytes are charged elsewhere. *)
Definition twelveBytesPerPosting (_ : nat) (size : Z) : BytesStart.ParallelPostingsArray :=
  BytesStart.newParallelPostingsArray 12 size.

Definition idle : BytesStart.state :=
  {| BytesStart.postingsArray := None;
     BytesStart.bytesUsed := 100;
     BytesStart.allocations := 0 |}.

(** Fields as the indexing chain hands them to the writer: no attribute
    written yet. *)
Definition plainField (name : string) : Field.FieldInfo :=
  {| Field.Name := name; Field.indexed := true; Field.docValues := false;
     Field.attributes := ∅ |}.

(** Three instances of one format, all named Lucene41. *)
Definition lucene41 (i : nat) : PostingsWriter.PostingsFormat :=
  {| PostingsWriter.instance := i; PostingsWriter.formatName := "Lucene41" |}.

(** A policy under which title and body resolve to the same instance,
    tags and id to two further instances of the same name. *)
Definition sharingPolicy (fieldName : string) : option PostingsWriter.PostingsFormat :=
  if String.eqb fieldName "tags" then Some (lucene41 1)
  else if String.eqb fieldName "id" then Some (lucene41 2)
  else Some (lucene41 0).

Definition opensAlways (_ : PostingsWriter.PostingsFormat) (_ : string) : option error := None.
Definition acceptsAlways (_ : nat) (_ : Field.FieldInfo) : option error := None.

Definition addFieldTo (e : PostingsWriter.effect) (name : string) : PostingsWriter.effect :=
  PostingsWriter.addField opensAlways acceptsAlways
    (PostingsWriter.writer e) (PostingsWriter.opened e) (plainField name).

(** Field records as read back from a segment: indexed, with doc values,
    carrying the persisted format name and suffix. *)
Definition storedField (name format suffix : string) : Field.FieldInfo :=
  {| Field.Name := name; Field.indexed := true; Field.docValues := true;
     Field.attributes :=
       <[Field.PER_FIELD_SUFFIX_KEY := suffix]>
         (<[Field.PER_FIELD_FORMAT_KEY := format]> ∅) |}.

(** A field that is declared but has no format recorded. *)
Definition bareField (name : string) : Field.FieldInfo :=
  {| Field.Name := name; Field.indexed := true; Field.docValues := true;
     Field.attributes := ∅ |}.

(** Two fields: price opens under Lucene45_0, stock names a format whose
    producer cannot be opened. *)
Definition priceThenStock : list Field.FieldInfo :=
  [storedField "price" "Lucene45" "0"; storedField "stock" "Broken" "0"].

(** Every format opens, except the one named Broken. *)
Definition brokenFails (formatName segmentSuffix : string) : option error :=
  if String.eqb formatName "Broken" then Some "cannot open Broken_0"%string else None.

Definition closesQuietly (_ : nat) : option error := None.

Definition nothingOpen : Producers.world :=
  {| Producers.opened := []; Producers.closed := [] |}.

(** The doc-values reader built over note (no format recorded), price
    and stock. *)
Definition noteReader : DocValuesReader.PerFieldDocValuesReader :=
  (DocValuesReader.visitAll brokenFails (bareField "note" :: priceThenStock)
     {| DocValuesReader.fields := ∅; DocValuesReader.formats := ∅ |} nothingOpen).1.

(** A producer query that fails whenever it is reached. *)
Definition failingQuery (_ : nat) (_ : Field.FieldInfo) : outcome (option Z) :=
  Err "producer reached"%string.

(** A newly made writer with no consumer opened; [result] and
    [field_after] are not read by [addFieldTo]. *)
Definition newWriter : PostingsWriter.effect :=
  {| PostingsWriter.result := Ok {| PostingsWriter.acceptor_of := 0;
                                    PostingsWriter.acceptor_field := "" |};
     PostingsWriter.writer := PostingsWriter.newPerFieldPostingsWriter sharingPolicy "";
     PostingsWriter.opened := [];
     PostingsWriter.field_after := plainField "" |}.

End Samples.

(** ** The rest of the commit record's methods *)

Module CommitLifecycle.
Import Go CommitInfo.

(** [NewSegmentCommitInfo] opens with [panic("not implemented yet")];
    the record literal after it is never built. *)
Definition NewSegmentCommitInfo (i : SegmentInfo) (delCount delGen fieldInfosGen docValuesGen : Z)
    : outcome SegmentCommitInfo :=
  Panic NotImplementedYet.

(** [Clone], [String] and [StringOf] open with the same panic. *)
Definition Clone (si : SegmentCommitInfo) : outcome SegmentCommitInfo :=
  Panic NotImplementedYet.

Definition String (si : SegmentCommitInfo) : outcome string :=
  Panic NotImplementedYet.

Definition StringOf (si : SegmentCommitInfo) (pendingDelCount : Z) : outcome string :=
  Panic NotImplementedYet.

(** [n] successful delete-writes in a row, and [n] failed attempts in a
    row. *)
Definition writes (n : nat) (si : SegmentCommitInfo) : SegmentCommitInfo :=
  Nat.iter n advanceDelGen si.

Definition failedAttempts (n : nat) (si : SegmentCommitInfo) : SegmentCommitInfo :=
  Nat.iter n advanceNextWriteDelGen si.

End CommitLifecycle.

(** ** Sequences of calls on the backing-store adapter *)

Module BytesStartRuns.
Import Go BytesStart.

Inductive call : Type := CallInit | CallClear.

(** The bytes the adapter has charged for the array it holds. *)
Definition charged (st : state) : Z :=
  match postingsArray st with
  | Some (_, arr) => footprint arr
  | None => 0
  end.

Section Runs.
Variable createPostingsArray : nat -> Z -> ParallelPostingsArray.

Definition step (c : call) (st : state) : state :=
  match c with
  | CallInit => (Init createPostingsArray st).2
  | CallClear => (Clear st).2
  end.

(** The calls of [cs], first to last. *)
Definition run (cs : list call) (st : state) : state :=
  foldl (fun s c => step c s) st cs.

End Runs.

(** [BytesUsed()] hands out the shared counter. *)
Definition BytesUsed (st : state) : Z := bytesUsed st.

End BytesStartRuns.

(** ** The per-field term builder chain (invertedDocConsumerPerField.go) *)

Module TermsHash.

Section Chain.
(** The state of a [util.BytesRefHash] and its [Clear(false)], both
    declared outside the sources. *)
Variable BytesRefHash : Type.
Variable Clear_false : BytesRefHash -> BytesRefHash.

(** [TermsHashPerField], reduced to the two fields [shrinkHash], [reset]
    and [abort] touch: the dedup table and the link to the next level
    ([None] is a nil [nextPerField]). *)
Inductive TermsHashPerField : Type :=
  PerField (bytesHash : BytesRefHash) (nextPerField : option TermsHashPerField).

Definition bytesHash (h : TermsHashPerField) : BytesRefHash :=
  match h with PerField b _ => b end.

Definition nextPerField (h : TermsHashPerField) : option TermsHashPerField :=
  match h with PerField _ n => n end.

(** The tables of the chain, outermost level first. *)
Fixpoint levels (h : TermsHashPerField) : list BytesRefHash :=
  match h with
  | PerField b None => [b]
  | PerField b (Some n) => b :: levels n
  end.

Definition shrinkHash (targetSize : Z) (h : TermsHashPerField) : TermsHashPerField :=
  PerField (Clear_false (bytesHash h)) (nextPerField h).

Fixpoint reset (h : TermsHashPerField) : TermsHashPerField :=
  match h with
  | PerField b None => PerField (Clear_false b) None
  | PerField b (Some n) => PerField (Clear_false b) (Some (reset n))
  end.

(** [abort]: [h.reset()], then [h.nextPerField.abort()] on the chain as
    the reset left it. The recursion goes down one level per call, so the
    number of levels is fuel enough. *)
Fixpoint abortWithin (fuel : nat) (h : TermsHashPerField) : TermsHashPerField :=
  match fuel with
  | O => h
  | S fuel' =>
      match reset h with
      | PerField b None => PerField b None
      | PerField b (Some n) => PerField b (Some (abortWithin fuel' n))
      end
  end.

Definition abort (h : TermsHashPerField) : TermsHashPerField :=
  abortWithin (length (levels h)) h.

End Chain.

Arguments PerField {BytesRefHash} bytesHash nextPerField.
Arguments bytesHash {BytesRefHash} h.
Arguments nextPerField {BytesRefHash} h.
Arguments levels {BytesRefHash} h.
Arguments shrinkHash {BytesRefHash} Clear_false targetSize h.
Arguments reset {BytesRefHash} Clear_false h.
Arguments abortWithin {BytesRefHash} Clear_false fuel h.
Arguments abort {BytesRefHash} Clear_false h.

End TermsHash.

(** ** Closing the dispatchers, and runs of [addField] *)

Module Closing.
Import Go Field.

(** [PerFieldPostingsWriter.Close] hands [util.Close] one item per value
    of [w.formats]; the list names the consumer behind each item. *)
Definition writerItems (w : PostingsWriter.PerFieldPostingsWriter) : list nat :=
  (fun kv => PostingsWriter.consumer kv.2) <$> map_to_list (PostingsWriter.formats w).

(** [PerFieldPostingsReader.Close] and [PerFieldDocValuesReader.Close]
    hand [util.Close] one item per value of [formats]. *)
Definition postingsReaderItems (r : PostingsReader.PerFieldPostingsReader) : list nat :=
  (map_to_list (PostingsReader.formats r)).*2.

Definition docValuesReaderItems (r : DocValuesReader.PerFieldDocValuesReader) : list nat :=
  (map_to_list (DocValuesReader.formats r)).*2.

Section Runs.
Variable FieldsConsumer : PostingsWriter.PostingsFormat -> string -> option error.
Variable consumerAddField : nat -> FieldInfo -> option error.

(** One [addField] call per field record, each on the writer and the
    opened consumers as the call before left them, whatever that call's
    result was. *)
Definition addFields (fs : list FieldInfo)
    (w : PostingsWriter.PerFieldPostingsWriter) (os : list string)
    : PostingsWriter.PerFieldPostingsWriter * list string :=
  foldl (fun st f =>
           let e := PostingsWriter.addField FieldsConsumer consumerAddField st.1 st.2 f in
           (PostingsWriter.writer e, PostingsWriter.opened e))
        (w, os) fs.

End Runs.

End Closing.

Module MoreSamples.
Import Go.

(** The adapter's [Clear] as the table's [Clear(false)] sees it. *)
Definition clearColumns (st : BytesStart.state) : BytesStart.state :=
  (BytesStart.Clear st).2.

(** A two-level chain whose tables both hold an array. *)
Definition holding (bytes : Z) : BytesStart.state :=
  {| BytesStart.postingsArray := Some (0%nat, BytesStart.newParallelPostingsArray 12 2);
     BytesStart.bytesUsed := bytes;
     BytesStart.allocations := 1 |}.

Definition twoLevels : TermsHash.TermsHashPerField BytesStart.state :=
  TermsHash.PerField (holding 124)
    (Some (TermsHash.PerField (holding 24) None)).

(** A writer nested inside another per-field format's segment suffix. *)
Definition nestedWriter : PostingsWriter.PerFieldPostingsWriter :=
  PostingsWriter.newPerFieldPostingsWriter Samples.sharingPolicy "Lucene41_0".

(** A format whose consumer cannot be opened. *)
Definition opensNever (_ : PostingsWriter.PostingsFormat) (_ : string) : option error :=
  Some "disk full"%string.

(** No producer can be loaded. *)
Definition loadsNever (_ _ : string) : option error := Some "no such format"%string.

End MoreSamples.

Module ReaderSamples.
Import Go.

(** price and cost were both written by format Lucene45 under suffix 0. *)
Definition priceAndCost : list Field.FieldInfo :=
  [Samples.storedField "price" "Lucene45" "0"; Samples.storedField "cost" "Lucene45" "0"].

Definition opensEvery (_ _ : string) : option error := None.

(** The reader and the producers after the postings constructor ran over
    price and cost. *)
Definition sharedReader : PostingsReader.PerFieldPostingsReader :=
  (PostingsReader.visitAll opensEvery priceAndCost
     {| PostingsReader.fields := ∅; PostingsReader.formats := ∅ |}
     Samples.nothingOpen).1.2.

Definition oneProducer : Producers.world :=
  {| Producers.opened := ["Lucene45_0"]; Producers.closed := [] |}.

(** The doc-values reader left by a constructor that could load
    nothing. *)
Definition nilReader : DocValuesReader.PerFieldDocValuesReader :=
  (DocValuesReader.visitAll MoreSamples.loadsNever priceAndCost
     {| DocValuesReader.fields := ∅; DocValuesReader.formats := ∅ |}
     Samples.nothingOpen).1.

End ReaderSamples.

Module SizeSamples.
Import Go CommitInfo.

(** A [Files()] that answers with two file names. *)
Definition twoFiles (_ : SegmentCommitInfo) : outcome (list string) :=
  Ok ["_1.cfs"; "_1.si"]%string.

(** A directory in which the length of _1.si cannot be read. *)
Definition siUnreadable (fileName : string) : Z + error :=
  if String.eqb fileName "_1.si" then inr "read error"%string else inl 5.

(** A directory that reports 4 and -5 for the two files. *)
Definition oddLengths (fileName : string) : Z + error :=
  if String.eqb fileName "_1.si" then inl (-5) else inl 4.

Definition freshOver (dir : string -> Z + error) : SegmentCommitInfo :=
  Samples.commitOf {| docCount := 10; Dir := dir |} (-1) 1 (-1).

End SizeSamples.

(** * Properties *)

(** ** int64 arithmetic *)

Section Int64Facts.
Import Go.

Lemma wrap64_id z : in_int64 z -> wrap64 z = z.
Proof.
  unfold in_int64, wrap64, min_int64, max_int64. intros H.
  rewrite Z.mod_small; lia.
Qed.

Lemma wrap64_range z : in_int64 (wrap64 z).
Proof.
  unfold in_int64, wrap64, min_int64, max_int64.
  pose proof (Z.mod_pos_bound (z + 2^63) (2^64) ltac:(lia)). lia.
Qed.

Lemma wrap64_add_cancel c x :
  in_int64 c -> wrap64 (wrap64 (c + x) + wrap64 (- x)) = c.
Proof.
  intros Hc. rewrite <- (wrap64_id c Hc) at 2.
  unfold wrap64. f_equal.
  replace ((c + x + 2^63) mod 2^64 - 2^63 + ((- x + 2^63) mod 2^64 - 2^63) + 2^63)
    with ((c + x + 2^63) mod 2^64 + (- x + 2^63) mod 2^64 - 2^63) by lia.
  rewrite <- Zminus_mod_idemp_l, <- Zplus_mod.
  rewrite Zminus_mod_idemp_l. f_equal. lia.
Qed.

End Int64Facts.

(** ** The segment commit record *)

Section CommitInfoFacts.
Import Go CommitInfo Samples.

Lemma HasDeletions_iff si : HasDeletions si = true <-> delGen si <> -1.
Proof.
  unfold HasDeletions. destruct (Z.eqb_spec (delGen si) (-1)); simpl; split;
    intros; congruence.
Qed.

(** What [advanceDelGen] assigns, on every state: the new [delGen] is the
    old [nextWriteDelGen], the new [nextWriteDelGen] is the OLD [delGen]
    plus one, and the size cache is unset. *)
Lemma advanceDelGen_assigns si :
  delGen (advanceDelGen si) = nextWriteDelGen si /\
  nextWriteDelGen (advanceDelGen si) = wrap64 (delGen si + 1) /\
  sizeInBytes (advanceDelGen si) = -1.
Proof. repeat split. Qed.

(** C1: on the code, one successful delete-write from the initial state
    [delGen=-1, nextWriteDelGen=1] yields [delGen=1, nextWriteDelGen=0],
    so [nextWriteDelGen] does not exceed the just-assigned [delGen]; a
    second write yields [delGen=0, nextWriteDelGen=2], not [2] and [3]. *)
Theorem advanceDelGen_from_fresh :
  delGen (advanceDelGen fresh) = 1 /\
  nextWriteDelGen (advanceDelGen fresh) = 0 /\
  ~ (delGen (advanceDelGen fresh) < nextWriteDelGen (advanceDelGen fresh)) /\
  nextWriteDelGen (advanceDelGen fresh) <> delGen (advanceDelGen fresh) + 1 /\
  delGen (advanceDelGen (advanceDelGen fresh)) = 0 /\
  nextWriteDelGen (advanceDelGen (advanceDelGen fresh)) = 2.
Proof. vm_compute. repeat split; intros H; discriminate H. Qed.

(** C4: a failed delete-write attempt adds exactly one to
    [nextWriteDelGen] (an int64 below its maximum) and changes no other
    field of the record. *)
Theorem advanceNextWriteDelGen_only_bumps_next si :
  min_int64 <= nextWriteDelGen si < max_int64 ->
  nextWriteDelGen (advanceNextWriteDelGen si) = nextWriteDelGen si + 1 /\
  delGen (advanceNextWriteDelGen si) = delGen si /\
  delCount (advanceNextWriteDelGen si) = delCount si /\
  sizeInBytes (advanceNextWriteDelGen si) = sizeInBytes si /\
  BufferedUpdatesGen (advanceNextWriteDelGen si) = BufferedUpdatesGen si /\
  info (advanceNextWriteDelGen si) = info si.
Proof.
  intros H. repeat split. simpl. apply wrap64_id.
  unfold in_int64, min_int64, max_int64 in *. lia.
Qed.

(** From [delGen=1, nextWriteDelGen=2] a failed attempt gives
    [delGen=1, nextWriteDelGen=3]. *)
Lemma advanceNextWriteDelGen_scenario :
  nextWriteDelGen (advanceNextWriteDelGen (commitOf tenDocs 1 2 (-1))) = 2 + 1 /\
  delGen (advanceNextWriteDelGen (commitOf tenDocs 1 2 (-1))) = 1 /\
  delCount (advanceNextWriteDelGen (commitOf tenDocs 1 2 (-1))) = 0 /\
  sizeInBytes (advanceNextWriteDelGen (commitOf tenDocs 1 2 (-1))) = -1 /\
  BufferedUpdatesGen (advanceNextWriteDelGen (commitOf tenDocs 1 2 (-1))) = 0 /\
  info (advanceNextWriteDelGen (commitOf tenDocs 1 2 (-1))) = tenDocs.
Proof.
  apply (advanceNextWriteDelGen_only_bumps_next (commitOf tenDocs 1 2 (-1))).
  split; [intros H; discriminate H | reflexivity].
Defined.

(** In every state the counter moves by one in int64 arithmetic. *)
Lemma advanceNextWriteDelGen_wraps si :
  nextWriteDelGen (advanceNextWriteDelGen si) = wrap64 (nextWriteDelGen si + 1).
Proof. reflexivity. Qed.

(** C9: [setDelCount n] panics on the assertion when [n < 0] or
    [n > docCount], and for [0 <= n <= docCount] returns normally with
    [delCount = n] and every other field as it was. *)
Theorem setDelCount_accepts_exactly_range si n :
  (n < 0 \/ DocCount (info si) < n -> is_panic (setDelCount n si)) /\
  (0 <= n <= DocCount (info si) ->
   exists si', setDelCount n si = Ok si' /\
     delCount si' = n /\ delGen si' = delGen si /\
     nextWriteDelGen si' = nextWriteDelGen si /\
     sizeInBytes si' = sizeInBytes si /\
     BufferedUpdatesGen si' = BufferedUpdatesGen si /\ info si' = info si).
Proof.
  unfold setDelCount, assert2. split.
  - intros H.
    replace ((n >=? 0) && (n <=? DocCount (info si))) with false; [exact I|].
    symmetry. apply andb_false_iff.
    destruct H; [left; rewrite Z.geb_leb; apply Z.leb_gt | right; apply Z.leb_gt]; lia.
  - intros [H0 H1].
    replace ((n >=? 0) && (n <=? DocCount (info si))) with true.
    + simpl. eexists. repeat split.
    + symmetry. apply andb_true_iff. split;
        [rewrite Z.geb_leb; apply Z.leb_le | apply Z.leb_le]; lia.
Qed.

(** On a ten-document segment: -1 and 11 are rejected, 0 and 10 are
    accepted. *)
Lemma setDelCount_boundaries :
  is_panic (setDelCount (-1) fresh) /\
  is_panic (setDelCount 11 fresh) /\
  (exists si', setDelCount 0 fresh = Ok si' /\ delCount si' = 0) /\
  (exists si', setDelCount 10 fresh = Ok si' /\ delCount si' = 10).
Proof.
  split; [|split; [|split]].
  - apply (proj1 (setDelCount_accepts_exactly_range fresh (-1))).
    left. reflexivity.
  - apply (proj1 (setDelCount_accepts_exactly_range fresh 11)).
    right. reflexivity.
  - destruct (proj2 (setDelCount_accepts_exactly_range fresh 0)) as [si' [H [H' _]]].
    + split; intros H; discriminate H.
    + exists si'. split; assumption.
  - destruct (proj2 (setDelCount_accepts_exactly_range fresh 10)) as [si' [H [H' _]]].
    + split; intros H; discriminate H.
    + exists si'. split; assumption.
Defined.

End CommitInfoFacts.

(** ** [SizeInBytes] and its cache *)

Section SizeInBytesFacts.
Import Go CommitInfo Samples.

(** A set cache is answered as is: no directory query, receiver
    untouched, whatever [Files()] would do. *)
Lemma SizeInBytesWith_cached files si :
  sizeInBytes si <> -1 ->
  SizeInBytesWith files si = (Ok (sizeInBytes si), si, []).
Proof.
  intros H. unfold SizeInBytesWith.
  destruct (Z.eqb_spec (sizeInBytes si) (-1)); [contradiction | reflexivity].
Qed.

(** With the cache unset the call reaches [Files()] and panics there,
    before any directory query and without touching the receiver. *)
Lemma SizeInBytes_unset si :
  sizeInBytes si = -1 ->
  SizeInBytes si = (Panic NotImplementedYet, si, []).
Proof. intros H. unfold SizeInBytes, SizeInBytesWith, Files. rewrite H. reflexivity. Qed.


(** The loop asks the directory for the files in order and stops at the
    first failure. *)
Lemma sumFileLengths_asked dir fs : forall sum v asked,
  sumFileLengths dir fs sum = (inl v, asked) -> asked = fs.
Proof.
  induction fs as [|f fs IH]; intros sum v asked; simpl.
  - intros [= _ <-]. reflexivity.
  - destruct (dir f) as [d|e]; [|discriminate].
    destruct (sumFileLengths dir fs (wrap64 (sum + d))) as [r a] eqn:E.
    intros [= -> <-]. f_equal. eapply IH, E.
Qed.

(** When every file before [f] has a length and the query for [f]
    fails, the loop returns that error after asking for [f]; the files
    after [f] are not asked for. *)
Lemma sumFileLengths_first_failure dir pre f post e : forall sum,
  Forall (fun g => exists d, dir g = inl d) pre ->
  dir f = inr e ->
  sumFileLengths dir (pre ++ f :: post) sum = (inr e, pre ++ [f]).
Proof.
  induction pre as [|g pre IH]; intros sum Hpre Hf; simpl.
  - rewrite Hf. reflexivity.
  - inversion Hpre as [|? ? [d Hd] Hrest]; subst. rewrite Hd.
    rewrite (IH _ Hrest Hf). reflexivity.
Qed.

(** Without overflow the loop's result is the exact total. *)
Lemma sumFileLengths_total dir fs : forall sum,
  Forall (fun g => exists d, dir g = inl d /\ 0 <= d) fs ->
  0 <= sum -> sum + totalLength dir fs <= max_int64 ->
  sumFileLengths dir fs sum = (inl (sum + totalLength dir fs), fs).
Proof.
  induction fs as [|f fs IH]; intros sum Hall Hs Hmax; simpl in *.
  - rewrite Z.add_0_r. reflexivity.
  - inversion Hall as [|? ? [d [Hd Hd0]] Hrest]; subst. rewrite Hd in *.
    assert (Htl : 0 <= totalLength dir fs).
    { clear -Hrest. induction Hrest as [|g l [d' [Hg Hg0]] _ IHl]; simpl; [lia|].
      rewrite Hg. lia. }
    rewrite wrap64_id by (unfold in_int64, min_int64, max_int64 in *; lia).
    rewrite IH by (auto; lia). do 2 f_equal. lia.
Qed.

(** Given a [Files()] that answers, the first call on an unset cache
    queries every file once, caches the sum and returns it; unless that
    sum is the sentinel -1, the next call asks nothing. *)
Lemma SizeInBytesWith_computes_then_caches files si fs sum asked :
  sizeInBytes si = -1 -> files si = Ok fs ->
  sumFileLengths (Dir (info si)) fs 0 = (inl sum, asked) ->
  SizeInBytesWith files si = (Ok sum, set_sizeInBytes sum si, fs) /\
  (sum <> -1 ->
   SizeInBytesWith files (set_sizeInBytes sum si)
     = (Ok sum, set_sizeInBytes sum si, [])).
Proof.
  intros Hc Hf Hs. split.
  - unfold SizeInBytesWith. rewrite Hc, Hf, Hs. simpl.
    rewrite (sumFileLengths_asked _ _ _ _ _ Hs). reflexivity.
  - intros Hne. apply (SizeInBytesWith_cached files (set_sizeInBytes sum si)).
    exact Hne.
Qed.

(** Given a [Files()] that answers, a failing length query is returned
    as the error and the receiver, cache included, is left as it was. *)
Lemma SizeInBytesWith_error_keeps_unset files si fs e asked :
  sizeInBytes si = -1 -> files si = Ok fs ->
  sumFileLengths (Dir (info si)) fs 0 = (inr e, asked) ->
  SizeInBytesWith files si = (Err e, si, asked).
Proof.
  intros Hc Hf Hs. unfold SizeInBytesWith. rewrite Hc, Hf, Hs. reflexivity.
Qed.

(** On the code, [SizeInBytes()] on a record whose cache is unset
    panics in [Files()] ("not implemented yet"): nothing is summed,
    nothing is cached, and a second call panics the same way. *)
Theorem SizeInBytes_fresh_panics :
  SizeInBytes fresh = (Panic NotImplementedYet, fresh, []) /\
  sizeInBytes (SizeInBytes fresh).1.2 = -1 /\
  SizeInBytes (SizeInBytes fresh).1.2 = (Panic NotImplementedYet, fresh, []).
Proof. repeat split. Qed.

(** On the code, with the cache unset and a directory whose every
    length query fails, [SizeInBytes()] returns no error: it panics in
    [Files()] before the directory is asked anything. *)
Theorem SizeInBytes_broken_dir_panics :
  Dir (info freshBrokenDir) "_1.cfs" = inr "read error"%string /\
  SizeInBytes freshBrokenDir = (Panic NotImplementedYet, freshBrokenDir, []) /\
  (forall e, (SizeInBytes freshBrokenDir).1.1 <> Err e).
Proof. repeat split. intros e H. discriminate H. Qed.

(** [setBufferedUpdatesGen] stores the generation and unsets the size
    cache; nothing else changes. *)
Lemma setBufferedUpdatesGen_invalidates v si :
  BufferedUpdatesGen (setBufferedUpdatesGen v si) = v /\
  sizeInBytes (setBufferedUpdatesGen v si) = -1 /\
  delGen (setBufferedUpdatesGen v si) = delGen si /\
  nextWriteDelGen (setBufferedUpdatesGen v si) = nextWriteDelGen si /\
  delCount (setBufferedUpdatesGen v si) = delCount si /\
  info (setBufferedUpdatesGen v si) = info si.
Proof. repeat split. Qed.

(** After [setBufferedUpdatesGen] the next [SizeInBytes] takes the
    recomputation branch, whatever was cached before. *)
Lemma SizeInBytesWith_after_setBufferedUpdatesGen files v si :
  SizeInBytesWith files (setBufferedUpdatesGen v si)
  = match files (setBufferedUpdatesGen v si) with
    | Ok fs =>
        match sumFileLengths (Dir (info si)) fs 0 with
        | (inl sum, asked) =>
            (Ok sum, set_sizeInBytes sum (setBufferedUpdatesGen v si), asked)
        | (inr err, asked) => (Err err, setBufferedUpdatesGen v si, asked)
        end
    | Err e => (Err e, setBufferedUpdatesGen v si, [])
    | Panic c => (Panic c, setBufferedUpdatesGen v si, [])
    end.
Proof. reflexivity. Qed.

(** C10: on the code, a record with 42 cached answers 42 without asking
    the directory; after [setBufferedUpdatesGen 7] the generation is 7 and
    the cache is -1, and the next [SizeInBytes()] neither returns 42 nor
    asks the directory: it panics in [Files()]. *)
Theorem setBufferedUpdatesGen_then_SizeInBytes :
  SizeInBytes sized42 = (Ok 42, sized42, []) /\
  BufferedUpdatesGen (setBufferedUpdatesGen 7 sized42) = 7 /\
  sizeInBytes (setBufferedUpdatesGen 7 sized42) = -1 /\
  SizeInBytes (setBufferedUpdatesGen 7 sized42)
    = (Panic NotImplementedYet, setBufferedUpdatesGen 7 sized42, []).
Proof. repeat split. Qed.

End SizeInBytesFacts.

(** ** The postings backing-store adapter *)

Section BytesStartFacts.
Import Go BytesStart.
Variable createPostingsArray : nat -> Z -> ParallelPostingsArray.

Local Abbreviation Init := (Init createPostingsArray).
Local Abbreviation InitAgain := (InitAgain createPostingsArray).

(** While an array is allocated, [Init] hands back its text-start column
    and changes nothing. *)
Lemma Init_allocated st id arr :
  postingsArray st = Some (id, arr) ->
  Init st = (Some (id, textStarts arr), st).
Proof. intros H. unfold BytesStart.Init. rewrite H. reflexivity. Qed.

Lemma InitAgain_allocated n : forall st id arr,
  postingsArray st = Some (id, arr) ->
  InitAgain n (Some (id, textStarts arr)) st = (Some (id, textStarts arr), st).
Proof.
  induction n as [|n IH]; intros st id arr H; simpl; [reflexivity|].
  rewrite (Init_allocated st id arr H). apply IH, H.
Qed.

(** [Clear] on an allocated array deducts that array's footprint and
    drops the array. *)
Lemma Clear_allocated st id arr :
  postingsArray st = Some (id, arr) ->
  Clear st = (None, {| postingsArray := None;
                       bytesUsed := wrap64 (bytesUsed st + wrap64 (- footprint arr));
                       allocations := allocations st |}).
Proof. intros H. unfold Clear. rewrite H. reflexivity. Qed.

Lemma Clear_empty st : postingsArray st = None -> Clear st = (None, st).
Proof. intros H. unfold Clear. rewrite H. reflexivity. Qed.

(** C5: starting with no columns and the counter at [c], the first
    [Init] allocates and charges the footprint; any number of further
    [Init] calls return that same column and leave the state (array,
    counter, allocation count) as it is; [Clear] then returns nil, drops
    the columns and brings the counter back to exactly [c]; the next
    [Init] asks the consumer for a new array and charges again. *)
Theorem Init_Clear_roundtrip st :
  postingsArray st = None -> in_int64 (bytesUsed st) ->
  let first := createPostingsArray (allocations st) 2 in
  let second := createPostingsArray (S (allocations st)) 2 in
  let col := Some (allocations st, textStarts first) in
  Init st = (col, (Init st).2) /\
  postingsArray (Init st).2 = Some (allocations st, first) /\
  bytesUsed (Init st).2 = wrap64 (bytesUsed st + footprint first) /\
  (forall n, InitAgain n col (Init st).2 = (col, (Init st).2)) /\
  (Clear (Init st).2).1 = None /\
  postingsArray (Clear (Init st).2).2 = None /\
  bytesUsed (Clear (Init st).2).2 = bytesUsed st /\
  (Init (Clear (Init st).2).2).1 = Some (S (allocations st), textStarts second) /\
  postingsArray (Init (Clear (Init st).2).2).2 = Some (S (allocations st), second) /\
  bytesUsed (Init (Clear (Init st).2).2).2 = wrap64 (bytesUsed st + footprint second) /\
  allocations (Init (Clear (Init st).2).2).2 = S (S (allocations st)).
Proof.
  intros Hnil Hc. cbv zeta.
  assert (HI : Init st =
    (Some (allocations st, textStarts (createPostingsArray (allocations st) 2)),
     {| postingsArray := Some (allocations st, createPostingsArray (allocations st) 2);
        bytesUsed := wrap64 (bytesUsed st
                       + footprint (createPostingsArray (allocations st) 2));
        allocations := S (allocations st) |})).
  { unfold BytesStart.Init. rewrite Hnil. reflexivity. }
  rewrite HI. cbn [fst snd postingsArray bytesUsed allocations].
  split; [reflexivity|]. split; [reflexivity|]. split; [reflexivity|].
  split. { intros n. apply InitAgain_allocated. reflexivity. }
  unfold Clear. cbn [fst snd postingsArray bytesUsed allocations].
  split; [reflexivity|]. split; [reflexivity|].
  split. { apply wrap64_add_cancel, Hc. }
  unfold BytesStart.Init. cbn [fst snd postingsArray bytesUsed allocations].
  rewrite (wrap64_add_cancel _ _ Hc). repeat split.
Qed.

End BytesStartFacts.

(** The round trip on a concrete adapter: 2 postings of 12 bytes are
    charged on top of 100, and given back. *)
Lemma Init_Clear_roundtrip_idle :
  BytesStart.bytesUsed (BytesStart.Init Samples.twelveBytesPerPosting Samples.idle).2 = 124 /\
  BytesStart.bytesUsed
    (BytesStart.Clear (BytesStart.Init Samples.twelveBytesPerPosting Samples.idle).2).2 = 100 /\
  (BytesStart.Init Samples.twelveBytesPerPosting
     (BytesStart.Clear (BytesStart.Init Samples.twelveBytesPerPosting Samples.idle).2).2).1
    = Some (1%nat, [0; 0]).
Proof.
  assert (Hrange : Go.in_int64 (BytesStart.bytesUsed Samples.idle)).
  { split; intros H; discriminate H. }
  pose proof (Init_Clear_roundtrip Samples.twelveBytesPerPosting Samples.idle
                eq_refl Hrange) as H.
  cbv zeta in H.
  destruct H as (_ & _ & H1 & _ & _ & _ & H2 & H3 & _).
  split; [|split].
  - rewrite H1. reflexivity.
  - rewrite H2. reflexivity.
  - rewrite H3. reflexivity.
Defined.

(** ** Write side of the per-field dispatcher *)

Section PostingsWriterFacts.
Import Go Field PostingsWriter Samples.
Variable FieldsConsumer : PostingsFormat -> string -> option error.
Variable consumerAddField : nat -> FieldInfo -> option error.

Local Abbreviation addField := (addField FieldsConsumer consumerAddField).

(** The suffix a not yet seen instance of format [name] is given. *)
Local Abbreviation nextSuffix w name :=
  (match suffixes w !! name with None => 0 | Some s => wrap64 (s + 1) end).

(** A field whose format instance is new to the writer: the instance is
    given 0 if its name is new, the name's last suffix plus one
    otherwise; one consumer is opened under [name_suffix] and remembered
    for the instance; name and suffix are written to the field. *)
Lemma addField_new_instance w os field format :
  postingsFormatForField w (Name field) = Some format ->
  attributes field !! PER_FIELD_FORMAT_KEY = None ->
  attributes field !! PER_FIELD_SUFFIX_KEY = None ->
  formats w !! instance format = None ->
  SegmentSuffix w = "" ->
  FieldsConsumer format
    (_suffix (formatName format) (pretty (nextSuffix w (formatName format)))) = None ->
  let e := addField w os field in
  let suffix := nextSuffix w (formatName format) in
  formats (writer e) !! instance format
    = Some {| consumer := length os; suffix := suffix |} /\
  (forall i, i <> instance format -> formats (writer e) !! i = formats w !! i) /\
  suffixes (writer e) !! formatName format = Some suffix /\
  opened e = os ++ [_suffix (formatName format) (pretty suffix)] /\
  Attribute PER_FIELD_FORMAT_KEY (field_after e) = formatName format /\
  Attribute PER_FIELD_SUFFIX_KEY (field_after e) = pretty suffix /\
  result e = match consumerAddField (length os) (field_after e) with
             | None => Ok {| acceptor_of := length os; acceptor_field := Name field |}
             | Some err => Err err
             end.
Proof.
  intros Hpol Hfmt Hsuf Hnew Houter Hopen. cbv zeta.
  remember (addField w os field) as e eqn:E.
  unfold PostingsWriter.addField in E. rewrite Hpol in E.
  unfold PutAttribute at 1 in E. rewrite Hfmt in E.
  cbn [default negb String.eqb] in E.
  rewrite Hnew in E. unfold fullSegmentSuffix in E. rewrite Houter in E.
  cbn [String.length Nat.eqb Name] in E. rewrite Hopen in E.
  unfold routeTo, PutAttribute in E. cbn [attributes Name] in E.
  rewrite lookup_insert_ne in E by discriminate. rewrite Hsuf in E.
  cbn [default String.eqb assert assert2 consumer] in E.
  subst e.
  cbn [writer opened field_after result formats suffixes set_formats set_suffixes].
  split; [apply lookup_insert_eq|].
  split; [intros i Hi; apply lookup_insert_ne; congruence|].
  split; [apply lookup_insert_eq|].
  split; [reflexivity|].
  unfold Attribute. cbn [attributes].
  split; [rewrite lookup_insert_ne by discriminate; rewrite lookup_insert_eq; reflexivity|].
  split; [rewrite lookup_insert_eq; reflexivity|].
  reflexivity.
Qed.

(** A field whose format instance the writer has seen before: the call
    panics with "not implemented yet"; the writer and the opened
    consumers are as before, and the field has its format name but no
    suffix written. *)
Lemma addField_seen_instance w os field format c :
  postingsFormatForField w (Name field) = Some format ->
  attributes field !! PER_FIELD_FORMAT_KEY = None ->
  formats w !! instance format = Some c ->
  result (addField w os field) = Panic NotImplementedYet /\
  writer (addField w os field) = w /\
  opened (addField w os field) = os /\
  attributes (field_after (addField w os field))
    = <[PER_FIELD_FORMAT_KEY := formatName format]> (attributes field).
Proof.
  intros Hpol Hfmt Hseen.
  remember (addField w os field) as e eqn:E.
  unfold PostingsWriter.addField in E. rewrite Hpol in E.
  unfold PutAttribute in E. rewrite Hfmt in E.
  cbn [default negb String.eqb] in E. rewrite Hseen in E.
  subst e. repeat split.
Qed.

End PostingsWriterFacts.

Section PostingsWriterScenarios.
Import Go Field PostingsWriter Samples.

(** Three distinct instances of the format named Lucene41 are given the
    suffixes 0, 1 and 2 and a consumer each. *)
Lemma distinct_instances_get_successive_suffixes :
  let e := addFieldTo (addFieldTo (addFieldTo newWriter "title") "tags") "id" in
  opened e = ["Lucene41_0"; "Lucene41_1"; "Lucene41_2"] /\
  formats (writer e) !! 0%nat = Some {| consumer := 0; suffix := 0 |} /\
  formats (writer e) !! 1%nat = Some {| consumer := 1; suffix := 1 |} /\
  formats (writer e) !! 2%nat = Some {| consumer := 2; suffix := 2 |} /\
  result e = Ok {| acceptor_of := 2; acceptor_field := "id" |}.
Proof. vm_compute. repeat split. Qed.

(** C2: on the code, after title has been added, adding body, which
    resolves to the same format instance, does not reach the open
    consumer: the call panics with "not implemented yet", body is given
    no suffix, and no acceptor is returned. *)
Theorem addField_same_instance_panics :
  sharingPolicy "title" = sharingPolicy "body" /\
  result (addFieldTo newWriter "title")
    = Ok {| acceptor_of := 0; acceptor_field := "title" |} /\
  Attribute PER_FIELD_SUFFIX_KEY (field_after (addFieldTo newWriter "title")) = "0" /\
  result (addFieldTo (addFieldTo newWriter "title") "body") = Panic NotImplementedYet /\
  Attribute PER_FIELD_SUFFIX_KEY
    (field_after (addFieldTo (addFieldTo newWriter "title") "body")) = "" /\
  opened (addFieldTo (addFieldTo newWriter "title") "body") = ["Lucene41_0"].
Proof. vm_compute. repeat split. Qed.

End PostingsWriterScenarios.

(** ** Read side of the per-field dispatcher: postings *)

Section PostingsReaderFacts.
Import Go Field Producers PostingsReader.
Variable FieldsProducer : string -> string -> option error.
Variable closeError : nat -> option error.

Local Abbreviation visit := (visit FieldsProducer).
Local Abbreviation visitAll := (visitAll FieldsProducer).
Local Abbreviation newPerFieldPostingsReader :=
  (newPerFieldPostingsReader FieldsProducer closeError).

(** Every producer opened from position [base] on is a value of
    [ans.formats]. *)
Local Abbreviation registered base ans w :=
  (forall p : nat, (base <= p < length (opened w))%nat ->
     exists k : string, formats ans !! k = Some p).

(** A field without a recorded format name is passed over: nothing is
    opened, nothing is mapped. *)
Lemma visit_no_format fi ans w :
  Attribute PER_FIELD_FORMAT_KEY fi = "" -> visit fi ans w = (Ok tt, ans, w).
Proof.
  intros H. unfold PostingsReader.visit. rewrite H.
  destruct (IsIndexed fi); reflexivity.
Qed.

Lemma visit_step fi ans w r ans' w' :
  visit fi ans w = (r, ans', w') ->
  closed w' = closed w /\
  (forall base, registered base ans w -> registered base ans' w') /\
  (forall f, fields ans' !! f <> None ->
     fields ans !! f <> None \/
     (f = Name fi /\ Attribute PER_FIELD_FORMAT_KEY fi <> "")) /\
  (forall e, r = Err e -> exists fmt seg, FieldsProducer fmt seg = Some e).
Proof.
  unfold PostingsReader.visit.
  destruct (IsIndexed fi);
    [|intros [= <- <- <-]; repeat split; auto; intros e [=]].
  destruct (String.eqb_spec (Attribute PER_FIELD_FORMAT_KEY fi) "") as [Hf|Hf];
    [intros [= <- <- <-]; repeat split; auto; intros e [=]|].
  destruct (String.eqb (Attribute PER_FIELD_SUFFIX_KEY fi) ""); cbn [negb assert assert2];
    [intros [= <- <- <-]; repeat split; auto; intros e [=]|].
  set (seg := Attribute PER_FIELD_FORMAT_KEY fi +:+ "_" +:+ Attribute PER_FIELD_SUFFIX_KEY fi).
  destruct (formats ans !! seg) as [fp|] eqn:Hseg.
  - intros [= <- <- <-]. cbn [fields formats]. repeat split; auto.
    + intros f Hin. destruct (decide (f = Name fi)) as [->|Hne]; [right; auto|].
      left. rewrite lookup_insert_ne in Hin by congruence. exact Hin.
    + intros e [=].
  - destruct (FieldsProducer (Attribute PER_FIELD_FORMAT_KEY fi) seg) as [err|] eqn:Hopen.
    + intros [= <- <- <-]. repeat split; auto.
      intros e [= <-]. eauto.
    + unfold open. intros [= <- <- <-]. cbn [fields formats opened closed].
      repeat split; auto.
      * intros base Hreg p Hp. rewrite length_app in Hp. cbn [length] in Hp.
        destruct (decide (p = length (opened w))) as [->|Hne].
        -- exists seg. apply lookup_insert_eq.
        -- destruct (Hreg p ltac:(lia)) as [k Hk]. exists k.
           rewrite lookup_insert_ne; [exact Hk|]. congruence.
      * intros f Hin. destruct (decide (f = Name fi)) as [->|Hne]; [right; auto|].
        left. rewrite lookup_insert_ne in Hin by congruence. exact Hin.
      * intros e [=].
Qed.

Lemma visitAll_steps fis : forall ans w r ans' w',
  visitAll fis ans w = (r, ans', w') ->
  closed w' = closed w /\
  (forall base, registered base ans w -> registered base ans' w') /\
  (forall f, fields ans' !! f <> None ->
     fields ans !! f <> None \/
     exists fi, fi ∈ fis /\ Name fi = f /\ Attribute PER_FIELD_FORMAT_KEY fi <> "") /\
  (forall e, r = Err e -> exists fmt seg, FieldsProducer fmt seg = Some e).
Proof.
  induction fis as [|fi fis IH]; intros ans w r ans' w'; cbn [PostingsReader.visitAll].
  - intros [= <- <- <-]. repeat split; auto. intros e [=].
  - destruct (visit fi ans w) as [[r1 ans1] w1] eqn:Hv.
    destruct (visit_step _ _ _ _ _ _ Hv) as (Hc1 & Hr1 & Hf1 & He1).
    assert (Hstop : (r1, ans1, w1) = (r, ans', w') ->
      closed w' = closed w /\
      (forall base, registered base ans w -> registered base ans' w') /\
      (forall f, fields ans' !! f <> None ->
         fields ans !! f <> None \/
         exists fi0, fi0 ∈ fi :: fis /\ Name fi0 = f /\
                     Attribute PER_FIELD_FORMAT_KEY fi0 <> "") /\
      (forall e, r = Err e -> exists fmt seg, FieldsProducer fmt seg = Some e)).
    { intros [= <- <- <-]. repeat split; auto.
      intros f Hin. destruct (Hf1 f Hin) as [?|[-> ?]]; [left; auto|].
      right. exists fi. split; [left|]; auto. }
    destruct r1 as [[]|e1|c1]; [|exact Hstop|exact Hstop].
    intros Hrest. destruct (IH _ _ _ _ _ Hrest) as (Hc2 & Hr2 & Hf2 & He2).
    split; [congruence|].
    split; [intros base Hb; apply Hr2, Hr1, Hb|]. split; [|exact He2].
    intros f Hin. destruct (Hf2 f Hin) as [Hin1|(fi0 & Hel & Hn & Ha)].
    + destruct (Hf1 f Hin1) as [?|[-> ?]]; [left; auto|].
      right. exists fi. split; [left|]; auto.
    + right. exists fi0. split; [right|]; auto.
Qed.

(** A construction that succeeds closes nothing, and maps only names
    of fields that carry a format name. *)
Lemma newPerFieldPostingsReader_success fis w r w' :
  newPerFieldPostingsReader fis w = (Ok r, w') ->
  closed w' = closed w /\
  (forall f, (forall fi, fi ∈ fis -> Name fi = f ->
                Attribute PER_FIELD_FORMAT_KEY fi = "") ->
     fields r !! f = None).
Proof.
  unfold PostingsReader.newPerFieldPostingsReader.
  destruct (PostingsReader.visitAll _ fis _ w) as [[r1 ans1] w1] eqn:Hv.
  destruct (visitAll_steps _ _ _ _ _ _ Hv) as (Hc & _ & Hf & _).
  destruct r1 as [[]|e1|c1]; intros [= <- <-]. split; [exact Hc|].
  intros f Hnone. destruct (fields ans1 !! f) eqn:E; [|reflexivity].
  destruct (Hf f) as [H|(fi & Hel & Hn & Ha)].
  - rewrite E. discriminate.
  - cbn [fields] in H. rewrite lookup_empty in H. contradiction.
  - exfalso. apply Ha. apply Hnone; assumption.
Qed.

(** A construction that fails (an open error, or the assertion on the
    suffix) has called [Close] on every producer it had opened, and an
    error it returns is the one the failing open answered. *)
Lemma newPerFieldPostingsReader_failure fis w r w' :
  newPerFieldPostingsReader fis w = (r, w') ->
  (forall ans, r <> Ok ans) ->
  (forall p, (length (opened w) <= p < length (opened w'))%nat -> p ∈ closed w') /\
  (forall p, ~ (leftOpen w' p /\ (length (opened w) <= p)%nat)) /\
  (forall e, r = Err e -> exists fmt seg, FieldsProducer fmt seg = Some e).
Proof.
  unfold PostingsReader.newPerFieldPostingsReader.
  destruct (PostingsReader.visitAll _ fis _ w) as [[r1 ans1] w1] eqn:Hv.
  destruct (visitAll_steps _ _ _ _ _ _ Hv) as (Hc & Hreg & _ & He).
  assert (Hall : forall p, (length (opened w) <= p < length (opened w1))%nat ->
                   p ∈ closed (cleanup closeError ans1 w1)).
  { intros p Hp. destruct (Hreg (length (opened w))) with (p := p) as [k Hk]; [|exact Hp|].
    - intros q Hq. lia.
    - unfold cleanup, CloseWhileSuppressingError. cbn [closed].
      apply elem_of_app. right. apply list_elem_of_fmap. exists (k, p).
      split; [reflexivity|]. apply elem_of_map_to_list. exact Hk. }
  destruct r1 as [[]|e1|c1]; intros [= <- <-] Hnot.
  - exfalso. eapply Hnot. reflexivity.
  - split; [exact Hall|]. split.
    + intros p [[Hlt Hnc] Hge]. apply Hnc, Hall.
      unfold cleanup, CloseWhileSuppressingError in Hlt. cbn [opened] in Hlt. lia.
    + intros e [= <-]. apply He. reflexivity.
  - split; [exact Hall|]. split.
    + intros p [[Hlt Hnc] Hge]. apply Hnc, Hall.
      unfold cleanup, CloseWhileSuppressingError in Hlt. cbn [opened] in Hlt. lia.
    + intros e [=].
Qed.

(** [Terms] on a name that is not a key of [fields] is nil. *)
Lemma Terms_unmapped (TermsOf : Type) (producerTerms : nat -> string -> option TermsOf)
    (r : PerFieldPostingsReader) (f : string) :
  fields r !! f = None -> Terms producerTerms r f = None.
Proof. intros H. unfold Terms. rewrite H. reflexivity. Qed.

End PostingsReaderFacts.

(** ** Read side of the per-field dispatcher: doc values *)

Section DocValuesReaderFacts.
Import Go Field Producers DocValuesReader.
Variable LoadDocValuesProducer : string -> string -> option error.

Local Abbreviation visit := (visit LoadDocValuesProducer).
Local Abbreviation visitAll := (visitAll LoadDocValuesProducer).
Local Abbreviation newPerFieldDocValuesReader :=
  (newPerFieldDocValuesReader LoadDocValuesProducer).

Lemma dv_visit_no_format fi ans w :
  Attribute PER_FIELD_FORMAT_KEY fi = "" -> visit fi ans w = (ans, w).
Proof.
  intros H. unfold DocValuesReader.visit. rewrite H.
  destruct (HasDocValues fi); reflexivity.
Qed.

Lemma dv_visit_step fi ans w ans' w' :
  visit fi ans w = (ans', w') ->
  closed w' = closed w /\
  (forall f, fields ans' !! f <> None ->
     fields ans !! f <> None \/
     (f = Name fi /\ Attribute PER_FIELD_FORMAT_KEY fi <> "")).
Proof.
  unfold DocValuesReader.visit.
  destruct (HasDocValues fi); [|intros [= <- <-]; auto].
  destruct (String.eqb_spec (Attribute PER_FIELD_FORMAT_KEY fi) "") as [Hf|Hf];
    [intros [= <- <-]; auto|].
  set (seg := Attribute PER_FIELD_FORMAT_KEY fi +:+ "_" +:+ Attribute PER_FIELD_SUFFIX_KEY fi).
  assert (Hkeys : forall (m : gmap string nat) f,
    <[Name fi := m !! seg]> (fields ans) !! f <> None ->
    fields ans !! f <> None \/
    (f = Name fi /\ Attribute PER_FIELD_FORMAT_KEY fi <> "")).
  { intros m f Hin. destruct (decide (f = Name fi)) as [->|Hne]; [right; auto|].
    left. rewrite lookup_insert_ne in Hin by congruence. exact Hin. }
  destruct (formats ans !! seg) as [p|] eqn:Hseg.
  - intros [= <- <-]. cbn [fields]. split; [reflexivity|]. apply Hkeys.
  - destruct (LoadDocValuesProducer (Attribute PER_FIELD_FORMAT_KEY fi) seg) as [err|].
    + intros [= <- <-]. cbn [fields]. split; [reflexivity|]. apply Hkeys.
    + unfold open. intros [= <- <-]. cbn [fields closed]. split; [reflexivity|].
      apply Hkeys.
Qed.

Lemma dv_visitAll_steps fis : forall ans w ans' w',
  visitAll fis ans w = (ans', w') ->
  closed w' = closed w /\
  (forall f, fields ans' !! f <> None ->
     fields ans !! f <> None \/
     exists fi, fi ∈ fis /\ Name fi = f /\ Attribute PER_FIELD_FORMAT_KEY fi <> "").
Proof.
  induction fis as [|fi fis IH]; intros ans w ans' w'; cbn [DocValuesReader.visitAll].
  - intros [= <- <-]. auto.
  - destruct (visit fi ans w) as [ans1 w1] eqn:Hv.
    destruct (dv_visit_step _ _ _ _ _ Hv) as (Hc1 & Hf1).
    intros Hrest. destruct (IH _ _ _ _ Hrest) as (Hc2 & Hf2).
    split; [congruence|].
    intros f Hin. destruct (Hf2 f Hin) as [Hin1|(fi0 & Hel & Hn & Ha)].
    + destruct (Hf1 f Hin1) as [?|[-> ?]]; [left; auto|].
      right. exists fi. split; [left|]; auto.
    + right. exists fi0. split; [right|]; auto.
Qed.

(** The doc-values constructor returns a reader and no error on every
    input, and never calls [Close]. *)
Lemma newPerFieldDocValuesReader_always_returns fis w :
  exists r w', newPerFieldDocValuesReader fis w = (Ok r, w') /\
               closed w' = closed w.
Proof.
  unfold DocValuesReader.newPerFieldDocValuesReader.
  destruct (DocValuesReader.visitAll _ fis _ w) as [ans w'] eqn:Hv.
  exists ans, w'. split; [reflexivity|].
  apply (dv_visitAll_steps _ _ _ _ _ Hv).
Qed.

Lemma newPerFieldDocValuesReader_keys fis w r w' f :
  newPerFieldDocValuesReader fis w = (Ok r, w') ->
  (forall fi, fi ∈ fis -> Name fi = f -> Attribute PER_FIELD_FORMAT_KEY fi = "") ->
  fields r !! f = None.
Proof.
  unfold DocValuesReader.newPerFieldDocValuesReader.
  destruct (DocValuesReader.visitAll _ fis _ w) as [ans w1] eqn:Hv.
  intros [= <- <-] Hnone.
  destruct (dv_visitAll_steps _ _ _ _ _ Hv) as (_ & Hf).
  destruct (fields ans !! f) eqn:E; [|reflexivity].
  destruct (Hf f) as [H|(fi & Hel & Hn & Ha)].
  - rewrite E. discriminate.
  - cbn [fields] in H. rewrite lookup_empty in H. contradiction.
  - exfalso. apply Ha. apply Hnone; assumption.
Qed.

(** A load that fails for a segment suffix not yet open leaves the field
    name bound to a nil producer; the error is dropped. *)
Lemma dv_visit_failed_load fi ans w e :
  HasDocValues fi = true ->
  Attribute PER_FIELD_FORMAT_KEY fi <> "" ->
  formats ans !! (Attribute PER_FIELD_FORMAT_KEY fi +:+ "_"
                  +:+ Attribute PER_FIELD_SUFFIX_KEY fi) = None ->
  LoadDocValuesProducer (Attribute PER_FIELD_FORMAT_KEY fi)
    (Attribute PER_FIELD_FORMAT_KEY fi +:+ "_"
     +:+ Attribute PER_FIELD_SUFFIX_KEY fi) = Some e ->
  visit fi ans w
  = ({| fields := <[Name fi := None]> (fields ans); formats := formats ans |}, w).
Proof.
  intros Hdv Hf Hseg Hload. unfold DocValuesReader.visit. rewrite Hdv.
  destruct (String.eqb_spec (Attribute PER_FIELD_FORMAT_KEY fi) "") as [?|_];
    [contradiction|].
  rewrite Hseg, Hload, Hseg. reflexivity.
Qed.

End DocValuesReaderFacts.

Section ReaderScenarios.
Import Go Field Producers Samples.

(** The postings constructor over price and stock: opening Broken_0
    fails; the producer opened for price is closed and the error comes
    back. *)
Lemma postings_reader_closes_on_failure :
  PostingsReader.newPerFieldPostingsReader brokenFails closesQuietly
    priceThenStock nothingOpen
  = (Err "cannot open Broken_0"%string,
     {| opened := ["Lucene45_0"]; closed := [0%nat] |}).
Proof. vm_compute. reflexivity. Qed.

(** C3: on the code, the doc-values constructor over the same two fields
    returns a reader and no error although opening Broken_0 failed: the
    producer opened for price is never closed, and stock is bound to a
    nil producer. *)
Theorem docvalues_reader_swallows_open_error :
  brokenFails "Broken" "Broken_0" = Some "cannot open Broken_0"%string /\
  (DocValuesReader.newPerFieldDocValuesReader brokenFails priceThenStock nothingOpen).2
    = {| opened := ["Lucene45_0"]; closed := [] |} /\
  leftOpen
    (DocValuesReader.newPerFieldDocValuesReader brokenFails priceThenStock nothingOpen).2
    0 /\
  match (DocValuesReader.newPerFieldDocValuesReader brokenFails priceThenStock
           nothingOpen).1 with
  | Ok r => DocValuesReader.fields r !! "price" = Some (Some 0%nat) /\
            DocValuesReader.fields r !! "stock" = Some None
  | _ => False
  end.
Proof.
  split; [reflexivity|]. split; [vm_compute; reflexivity|]. split.
  - split; [vm_compute; lia|]. vm_compute. apply not_elem_of_nil.
  - vm_compute. split; reflexivity.
Qed.

End ReaderScenarios.

(** ** Queries for a field without a producer *)

Section UnmappedFieldFacts.
Import Go Field Producers.

(** A field name that is not a key of the reader's field map gets
    nil from [Terms] and [(nil, nil)] from [Numeric], [Binary], [Sorted]
    and [SortedSet], whatever the producers would answer; and a name
    whose field records carry no format name is not a key of a
    constructed reader, no producer being opened for such a record. *)
Theorem unmapped_field_queries_are_empty :
  (forall (T : Type) (producerTerms : nat -> string -> option T) r f,
     PostingsReader.fields r !! f = None ->
     PostingsReader.Terms producerTerms r f = None) /\
  (forall (N B S SS : Type)
     (pn : nat -> FieldInfo -> outcome (option N))
     (pb : nat -> FieldInfo -> outcome (option B))
     (ps : nat -> FieldInfo -> outcome (option S))
     (pss : nat -> FieldInfo -> outcome (option SS)) dvp field,
     DocValuesReader.fields dvp !! Name field = None ->
     DocValuesReader.Numeric pn dvp field = Ok None /\
     DocValuesReader.Binary pb dvp field = Ok None /\
     DocValuesReader.Sorted ps dvp field = Ok None /\
     DocValuesReader.SortedSet pss dvp field = Ok None) /\
  (forall open closeError fis w r w' f,
     PostingsReader.newPerFieldPostingsReader open closeError fis w = (Ok r, w') ->
     (forall fi, fi ∈ fis -> Name fi = f -> Attribute PER_FIELD_FORMAT_KEY fi = "") ->
     PostingsReader.fields r !! f = None) /\
  (forall load fis w r w' f,
     DocValuesReader.newPerFieldDocValuesReader load fis w = (Ok r, w') ->
     (forall fi, fi ∈ fis -> Name fi = f -> Attribute PER_FIELD_FORMAT_KEY fi = "") ->
     DocValuesReader.fields r !! f = None) /\
  (forall open load fi w,
     Attribute PER_FIELD_FORMAT_KEY fi = "" ->
     (forall ans, PostingsReader.visit open fi ans w = (Ok tt, ans, w)) /\
     (forall ans, DocValuesReader.visit load fi ans w = (ans, w))).
Proof.
  split; [|split; [|split; [|split]]].
  - intros T pt r f H. apply Terms_unmapped, H.
  - intros N B S SS pn pb ps pss dvp field H.
    unfold DocValuesReader.Numeric, DocValuesReader.Binary,
      DocValuesReader.Sorted, DocValuesReader.SortedSet.
    rewrite H. repeat split.
  - intros open closeError fis w r w' f H Hnone.
    apply (newPerFieldPostingsReader_success _ _ _ _ _ _ H), Hnone.
  - intros load fis w r w' f H Hnone.
    eapply newPerFieldDocValuesReader_keys; eassumption.
  - intros open load fi w H. split; intros ans.
    + apply visit_no_format, H.
    + apply dv_visit_no_format, H.
Qed.

(** In the reader built over note, price and stock, note has no format
    recorded: the four doc-values queries for it answer [(nil, nil)]
    without reaching a producer. *)
Lemma unmapped_field_queries_note :
  DocValuesReader.fields Samples.noteReader !! "note" = None /\
  DocValuesReader.Numeric Samples.failingQuery Samples.noteReader
    (Samples.bareField "note") = Ok None /\
  DocValuesReader.Binary Samples.failingQuery Samples.noteReader
    (Samples.bareField "note") = Ok None /\
  DocValuesReader.Sorted Samples.failingQuery Samples.noteReader
    (Samples.bareField "note") = Ok None /\
  DocValuesReader.SortedSet Samples.failingQuery Samples.noteReader
    (Samples.bareField "note") = Ok None.
Proof.
  assert (H : DocValuesReader.fields Samples.noteReader
                !! Name (Samples.bareField "note") = None).
  { apply (proj1 (proj2 (proj2 (proj2 unmapped_field_queries_are_empty)))
             Samples.brokenFails
             (Samples.bareField "note" :: Samples.priceThenStock)
             Samples.nothingOpen Samples.noteReader
             {| opened := ["Lucene45_0"]; closed := [] |}).
    - vm_compute. reflexivity.
    - intros fi Hel Hn. unfold Samples.priceThenStock in Hel.
      repeat (apply elem_of_cons in Hel as [->|Hel]);
        try discriminate Hn; try reflexivity.
      apply elem_of_nil in Hel. contradiction. }
  split; [exact H|].
  exact (proj1 (proj2 unmapped_field_queries_are_empty) Z Z Z Z
           Samples.failingQuery Samples.failingQuery Samples.failingQuery
           Samples.failingQuery Samples.noteReader (Samples.bareField "note") H).
Defined.

End UnmappedFieldFacts.

(** * Further properties *)

(** ** Sequences of delete-writes on the commit record *)

Section DelGenSequences.
Import Go CommitInfo CommitLifecycle Samples.

Lemma writes_S n si : writes (S n) si = advanceDelGen (writes n si).
Proof. reflexivity. Qed.

Lemma failedAttempts_S n si :
  failedAttempts (S n) si = advanceNextWriteDelGen (failedAttempts n si).
Proof. reflexivity. Qed.

(** Two successful delete-writes in a row move both generations up by
    one: [(d, n)] becomes [(n, d+1)] and then [(d+1, n+1)]. Hence after
    [2k] writes the record holds [(d+k, n+k)], and after [2k+1] writes
    [(n+k, d+k+1)]. *)
Theorem writes_closed_form si k :
  in_int64 (delGen si) -> in_int64 (nextWriteDelGen si) ->
  delGen si + Z.of_nat k < max_int64 ->
  nextWriteDelGen si + Z.of_nat k < max_int64 ->
  delGen (writes (2 * k) si) = delGen si + Z.of_nat k /\
  nextWriteDelGen (writes (2 * k) si) = nextWriteDelGen si + Z.of_nat k /\
  delGen (writes (2 * k + 1) si) = nextWriteDelGen si + Z.of_nat k /\
  nextWriteDelGen (writes (2 * k + 1) si) = delGen si + Z.of_nat k + 1.
Proof.
  intros Hd Hn. unfold in_int64, min_int64, max_int64 in *.
  induction k as [|k IH]; intros Hdk Hnk.
  - change (writes (2 * 0) si) with si.
    change (writes (2 * 0 + 1) si) with (advanceDelGen si).
    cbn [advanceDelGen delGen nextWriteDelGen].
    rewrite wrap64_id by (unfold in_int64, min_int64, max_int64; lia).
    repeat split; lia.
  - destruct IH as (IH1 & IH2 & IH3 & IH4); [lia | lia |].
    replace (2 * S k)%nat with (S (2 * k + 1))%nat by lia.
    replace (S (2 * k + 1) + 1)%nat with (S (S (2 * k + 1)))%nat by lia.
    rewrite !writes_S. cbn [advanceDelGen delGen nextWriteDelGen].
    rewrite IH3, IH4.
    rewrite !wrap64_id by (unfold in_int64, min_int64, max_int64; lia).
    repeat split; lia.
Qed.

(** Four writes from the initial state: the record holds [(1, 3)]. *)
Lemma writes_closed_form_fresh :
  delGen (writes 4 fresh) = 1 /\ nextWriteDelGen (writes 4 fresh) = 3 /\
  delGen (writes 5 fresh) = 3 /\ nextWriteDelGen (writes 5 fresh) = 2.
Proof.
  assert (H1 : in_int64 (delGen fresh)) by (split; intros H; discriminate H).
  assert (H2 : in_int64 (nextWriteDelGen fresh)) by (split; intros H; discriminate H).
  destruct (writes_closed_form fresh 2 H1 H2 eq_refl eq_refl) as (A & B & C & D).
  exact (conj A (conj B (conj C D))).
Defined.

(** When [nextWriteDelGen] is two above [delGen], as in the initial
    state [(-1, 1)], the delete generation assigned by write number
    [2k+1] is assigned again by write number [2k+4]. *)
Theorem writes_reuse_generation si k :
  in_int64 (delGen si) ->
  nextWriteDelGen si = delGen si + 2 ->
  delGen si + Z.of_nat k + 4 < max_int64 ->
  delGen (writes (2 * k + 1) si) = delGen (writes (2 * (k + 2)) si).
Proof.
  intros Hd Hn Hk.
  assert (Hn' : in_int64 (nextWriteDelGen si))
    by (unfold in_int64, min_int64, max_int64 in *; lia).
  destruct (writes_closed_form si k Hd Hn') as (_ & _ & A & _);
    [unfold max_int64 in *; lia .. |].
  destruct (writes_closed_form si (k + 2) Hd Hn') as (B & _);
    [unfold max_int64 in *; lia .. |].
  rewrite A, B. lia.
Qed.

(** From the initial state the first and the fourth write both assign
    delete generation 1. *)
Lemma writes_reuse_generation_fresh :
  delGen (writes 1 fresh) = delGen (writes 4 fresh).
Proof.
  apply (writes_reuse_generation fresh 0).
  - split; intros H; discriminate H.
  - reflexivity.
  - reflexivity.
Defined.

(** After [k] failed attempts a successful write is assigned generation
    [nextWriteDelGen + k]: none of the [k] numbers given up is used. The
    write leaves [nextWriteDelGen] at the old [delGen] plus one and the
    size cache unset. *)
Theorem write_after_failedAttempts si k :
  in_int64 (nextWriteDelGen si) ->
  nextWriteDelGen si + Z.of_nat k <= max_int64 ->
  delGen (advanceDelGen (failedAttempts k si)) = nextWriteDelGen si + Z.of_nat k /\
  nextWriteDelGen (advanceDelGen (failedAttempts k si)) = wrap64 (delGen si + 1) /\
  sizeInBytes (advanceDelGen (failedAttempts k si)) = -1 /\
  delGen (failedAttempts k si) = delGen si /\
  sizeInBytes (failedAttempts k si) = sizeInBytes si.
Proof.
  intros Hn. unfold in_int64, min_int64, max_int64 in *.
  induction k as [|k IH]; intros Hk.
  - cbn. repeat split; lia.
  - destruct IH as (A & B & C & D & E); [lia|].
    rewrite failedAttempts_S. cbn [advanceDelGen advanceNextWriteDelGen delGen
      nextWriteDelGen sizeInBytes] in *.
    rewrite A, D, E.
    rewrite wrap64_id by (unfold in_int64, min_int64, max_int64; lia).
    repeat split; lia.
Qed.

(** One failed attempt at [(1, 2)], then a successful write: it is
    assigned generation 3. *)
Lemma write_after_failedAttempts_scenario :
  delGen (advanceDelGen (failedAttempts 1 (commitOf tenDocs 1 2 (-1)))) = 3 /\
  nextWriteDelGen (advanceDelGen (failedAttempts 1 (commitOf tenDocs 1 2 (-1)))) = 2.
Proof.
  destruct (write_after_failedAttempts (commitOf tenDocs 1 2 (-1)) 1) as (A & B & _).
  - split; intros H; discriminate H.
  - intros H; discriminate H.
  - split; [exact A | exact B].
Defined.

(** [HasDeletions] after each mutator: a successful write makes it true
    exactly when the generation it assigns is not -1; a failed attempt,
    [setBufferedUpdatesGen] and an accepted [setDelCount] leave it as it
    was. *)
Theorem HasDeletions_after_mutators si :
  (HasDeletions (advanceDelGen si) = true <-> nextWriteDelGen si <> -1) /\
  HasDeletions (advanceNextWriteDelGen si) = HasDeletions si /\
  (forall v, HasDeletions (setBufferedUpdatesGen v si) = HasDeletions si) /\
  (forall n si', setDelCount n si = Ok si' -> HasDeletions si' = HasDeletions si).
Proof.
  split; [apply HasDeletions_iff|]. split; [reflexivity|]. split; [reflexivity|].
  intros n si'. unfold setDelCount, assert2.
  destruct ((n >=? 0) && (n <=? DocCount (info si))); [|discriminate].
  intros [= <-]. reflexivity.
Qed.

(** [SizeInBytes] as the sources have it: whatever the record, it never
    asks the directory and never changes the record; it answers the cache
    when the cache is set and panics in [Files()] otherwise. *)
Theorem SizeInBytes_never_computes si :
  (SizeInBytes si).2 = [] /\
  (SizeInBytes si).1.2 = si /\
  (SizeInBytes si).1.1
    = if sizeInBytes si =? -1 then Panic NotImplementedYet else Ok (sizeInBytes si).
Proof.
  unfold SizeInBytes, SizeInBytesWith, Files.
  destruct (sizeInBytes si =? -1); repeat split.
Qed.

End DelGenSequences.

(** ** Any sequence of calls on the backing-store adapter *)

Section BytesStartRunFacts.
Import Go BytesStart BytesStartRuns.
Variable createPostingsArray : nat -> Z -> ParallelPostingsArray.

Local Abbreviation Init := (Init createPostingsArray).
Local Abbreviation step := (step createPostingsArray).
Local Abbreviation run := (run createPostingsArray).

(** [Init] and [Clear] are idempotent in every state: a second [Init]
    gives the same column and state as the first, a second [Clear]
    deducts nothing more. *)
Theorem Init_Clear_idempotent st :
  Init (Init st).2 = Init st /\
  Clear (Clear st).2 = (None, (Clear st).2) /\
  bytesUsed (Clear (Clear st).2).2 = bytesUsed (Clear st).2.
Proof.
  split; [|split].
  - unfold BytesStart.Init. destruct (postingsArray st) as [[id arr]|] eqn:E.
    + cbn [snd]. rewrite E. reflexivity.
    + reflexivity.
  - unfold Clear. destruct (postingsArray st) as [[id arr]|] eqn:E.
    + reflexivity.
    + cbn [snd]. rewrite E. reflexivity.
  - unfold Clear. destruct (postingsArray st) as [[id arr]|] eqn:E.
    + reflexivity.
    + cbn [snd]. rewrite E. reflexivity.
Qed.

Lemma step_keeps_account c call st :
  in_int64 c ->
  bytesUsed st = wrap64 (c + charged st) ->
  bytesUsed (step call st) = wrap64 (c + charged (step call st)).
Proof.
  intros Hc Hst. unfold BytesStartRuns.step, BytesStart.Init, Clear, charged in *.
  destruct call; destruct (postingsArray st) as [[id arr]|] eqn:E;
    cbn [snd bytesUsed postingsArray]; rewrite ?E.
  - exact Hst.
  - rewrite Hst, Z.add_0_r, (wrap64_id c Hc). reflexivity.
  - rewrite Hst, Z.add_0_r, (wrap64_id c Hc). apply wrap64_add_cancel, Hc.
  - exact Hst.
Qed.

Lemma run_keeps_account_from c cs : forall st,
  in_int64 c ->
  bytesUsed st = wrap64 (c + charged st) ->
  bytesUsed (run cs st) = wrap64 (c + charged (run cs st)).
Proof.
  induction cs as [|call cs IH]; intros st Hc Hst; [exact Hst|].
  apply IH; [exact Hc|]. apply step_keeps_account; assumption.
Qed.

(** Whatever sequence of [Init] and [Clear] calls is made on an adapter
    that starts without columns, the shared counter stands at its
    starting value plus the footprint of the array held at the end; in
    particular it is back at the starting value whenever no array is
    held. *)
Theorem run_keeps_account cs st :
  postingsArray st = None -> in_int64 (bytesUsed st) ->
  bytesUsed (run cs st) = wrap64 (bytesUsed st + charged (run cs st)) /\
  (postingsArray (run cs st) = None -> bytesUsed (run cs st) = bytesUsed st).
Proof.
  intros Hnil Hc.
  assert (H : bytesUsed (run cs st) = wrap64 (bytesUsed st + charged (run cs st))).
  { apply run_keeps_account_from; [exact Hc|].
    unfold charged. rewrite Hnil, Z.add_0_r, (wrap64_id _ Hc). reflexivity. }
  split; [exact H|].
  intros Hend. rewrite H. unfold charged. rewrite Hend, Z.add_0_r.
  apply wrap64_id, Hc.
Qed.

End BytesStartRunFacts.

(** Init, Init, Clear, Clear, Init, Clear on the idle adapter: the
    counter is back at 100. *)
Lemma run_keeps_account_idle :
  BytesStart.bytesUsed
    (BytesStartRuns.run Samples.twelveBytesPerPosting
       [BytesStartRuns.CallInit; BytesStartRuns.CallInit; BytesStartRuns.CallClear;
        BytesStartRuns.CallClear; BytesStartRuns.CallInit; BytesStartRuns.CallClear]
       Samples.idle) = 100.
Proof.
  assert (Hr : Go.in_int64 (BytesStart.bytesUsed Samples.idle)).
  { split; intros H; discriminate H. }
  apply (proj2 (run_keeps_account Samples.twelveBytesPerPosting _ Samples.idle
                  eq_refl Hr)).
  reflexivity.
Defined.

(** ** The per-field term builder chain *)

Section TermsHashFacts.
Import TermsHash.
Variable BytesRefHash : Type.
Variable Clear_false : BytesRefHash -> BytesRefHash.

Local Abbreviation reset := (reset Clear_false).
Local Abbreviation abortWithin := (abortWithin Clear_false).
Local Abbreviation abort := (abort Clear_false).

Lemma chain_induction (P : TermsHashPerField BytesRefHash -> Prop) :
  (forall b, P (PerField b None)) ->
  (forall b n, P n -> P (PerField b (Some n))) ->
  forall h, P h.
Proof.
  intros Hlast Hlink. fix IH 1. intros [b [n|]].
  - apply Hlink, IH.
  - apply Hlast.
Qed.

Lemma levels_reset h : levels (reset h) = Clear_false <$> levels h.
Proof.
  induction h as [b|b n IH] using chain_induction; cbn; [reflexivity|].
  rewrite IH. reflexivity.
Qed.

Lemma levels_shrinkHash targetSize h :
  levels (shrinkHash Clear_false targetSize h)
  = match levels h with
    | b :: rest => Clear_false b :: rest
    | [] => []
    end.
Proof. destruct h as [b [n|]]; reflexivity. Qed.

Lemma iter_Clear_shift k b :
  Nat.iter (S k) Clear_false (Clear_false b)
  = Clear_false (Nat.iter (S k) Clear_false b).
Proof. rewrite <- Nat.iter_succ_r. reflexivity. Qed.

Lemma levels_abortWithin fuel : forall h,
  (length (levels h) <= fuel)%nat ->
  levels (abortWithin fuel h)
  = imap (fun k b => Nat.iter (S k) Clear_false b) (levels h).
Proof.
  induction fuel as [|fuel IH]; intros [b [n|]] Hlen; cbn in Hlen; try lia.
  - cbn [TermsHash.abortWithin TermsHash.reset levels].
    rewrite IH by (rewrite levels_reset, length_fmap; lia).
    rewrite levels_reset, imap_fmap, imap_cons. f_equal.
    apply imap_ext. intros k x _. apply iter_Clear_shift.
  - reflexivity.
Qed.

Lemma abortWithin_enough fuel : forall h,
  (length (levels h) <= fuel)%nat -> abortWithin fuel h = abort h.
Proof.
  unfold TermsHash.abort.
  induction fuel as [|fuel IH]; intros [b [n|]] Hlen; cbn in Hlen; try lia.
  - cbn [levels length TermsHash.abortWithin TermsHash.reset].
    rewrite (IH (reset n)) by (rewrite levels_reset, length_fmap; lia).
    rewrite levels_reset, length_fmap. reflexivity.
  - reflexivity.
Qed.

(** [reset] runs [Clear(false)] once on the table of every level of the
    chain; [abort] runs it [k+1] times on the table at depth [k] (the
    outermost level has depth 0), whatever the length of the chain. *)
Theorem reset_abort_levels h :
  levels (reset h) = Clear_false <$> levels h /\
  levels (abort h) = imap (fun k b => Nat.iter (S k) Clear_false b) (levels h) /\
  length (levels (abort h)) = length (levels h).
Proof.
  split; [apply levels_reset|].
  assert (H : levels (abort h)
              = imap (fun k b => Nat.iter (S k) Clear_false b) (levels h)).
  { apply levels_abortWithin. lia. }
  split; [exact H|]. rewrite H. apply length_imap.
Qed.

Lemma reset_reset :
  (forall b, Clear_false (Clear_false b) = Clear_false b) ->
  forall h, reset (reset h) = reset h.
Proof.
  intros Hidem h. induction h as [b|b n IH] using chain_induction; cbn.
  - rewrite Hidem. reflexivity.
  - rewrite Hidem, IH. reflexivity.
Qed.

(** When [Clear(false)] is idempotent on the table, [abort] leaves the
    chain exactly as [reset] does, and either can be repeated or followed
    by the other without further effect. *)
Theorem abort_is_reset h :
  (forall b, Clear_false (Clear_false b) = Clear_false b) ->
  abort h = reset h /\ abort (abort h) = abort h /\ reset (abort h) = abort h.
Proof.
  intros Hidem.
  assert (H : forall fuel g, (length (levels g) <= fuel)%nat ->
                abortWithin fuel g = reset g).
  { induction fuel as [|fuel IH]; intros [b [n|]] Hlen; cbn in Hlen; try lia.
    - cbn [TermsHash.abortWithin TermsHash.reset].
      rewrite IH by (rewrite levels_reset, length_fmap; lia).
      rewrite reset_reset by exact Hidem. reflexivity.
    - reflexivity. }
  assert (Ha : forall g, abort g = reset g).
  { intros g. unfold TermsHash.abort. apply H. lia. }
  rewrite !Ha, !reset_reset by exact Hidem. repeat split.
Qed.

End TermsHashFacts.

(** [abort] on a two-level chain whose tables hold arrays, the adapter's
    [Clear] standing for the table's: both levels end without columns,
    exactly as after [reset]. *)
Lemma abort_is_reset_twoLevels :
  TermsHash.abort MoreSamples.clearColumns MoreSamples.twoLevels
  = TermsHash.reset MoreSamples.clearColumns MoreSamples.twoLevels.
Proof.
  apply (abort_is_reset BytesStart.state MoreSamples.clearColumns MoreSamples.twoLevels).
  intros st. unfold MoreSamples.clearColumns, BytesStart.Clear.
  destruct (BytesStart.postingsArray st) as [[id arr]|] eqn:E.
  - reflexivity.
  - cbn [snd]. rewrite E. reflexivity.
Defined.

(** ** More on the write side of the per-field dispatcher *)

Section PostingsWriterEdges.
Import Go Field PostingsWriter Closing.
Variable FieldsConsumer : PostingsFormat -> string -> option error.
Variable consumerAddField : nat -> FieldInfo -> option error.

Local Abbreviation addField := (addField FieldsConsumer consumerAddField).
Local Abbreviation addFields := (addFields FieldsConsumer consumerAddField).
Local Abbreviation nextSuffix w name :=
  (match suffixes w !! name with None => 0 | Some s => wrap64 (s + 1) end).

(** The format name is written once: on a field record that already
    carries a format name, [addField] panics on its first assertion,
    whatever the writer holds; writer and opened consumers are as
    before. *)
Theorem addField_format_written_once w os field format previous :
  postingsFormatForField w (Name field) = Some format ->
  attributes field !! PER_FIELD_FORMAT_KEY = Some previous ->
  previous <> "" ->
  result (addField w os field) = Panic (AssertionFailed "") /\
  writer (addField w os field) = w /\
  opened (addField w os field) = os /\
  Attribute PER_FIELD_FORMAT_KEY (field_after (addField w os field)) = formatName format.
Proof.
  intros Hpol Hprev Hne.
  remember (addField w os field) as e eqn:E.
  unfold PostingsWriter.addField in E. rewrite Hpol in E.
  unfold PutAttribute in E. rewrite Hprev in E. cbn [default id] in E.
  assert (Hb : String.eqb previous "" = false) by (apply String.eqb_neq; exact Hne).
  rewrite Hb in E. cbn [negb] in E. subst e. cbn [result writer opened field_after].
  split; [reflexivity|]. split; [reflexivity|]. split; [reflexivity|].
  unfold Attribute. cbn [attributes].
  rewrite lookup_insert_eq. reflexivity.
Qed.

(** A writer made with a non-empty outer segment suffix cannot take a
    field of a format instance it has not seen: the call panics ("cannot
    embed"), no consumer is opened or registered, yet the suffix number
    for the format's name has been used up. *)
Theorem addField_cannot_embed w os field format :
  postingsFormatForField w (Name field) = Some format ->
  attributes field !! PER_FIELD_FORMAT_KEY = None ->
  formats w !! instance format = None ->
  SegmentSuffix w <> "" ->
  result (addField w os field) = Panic (CannotEmbed (Name field)) /\
  formats (writer (addField w os field)) = formats w /\
  opened (addField w os field) = os /\
  suffixes (writer (addField w os field)) !! formatName format
    = Some (nextSuffix w (formatName format)).
Proof.
  intros Hpol Hfmt Hnew Houter.
  remember (addField w os field) as e eqn:E.
  unfold PostingsWriter.addField in E. rewrite Hpol in E.
  unfold PutAttribute in E. rewrite Hfmt in E.
  cbn [default negb String.eqb] in E. rewrite Hnew in E.
  unfold fullSegmentSuffix in E.
  destruct (SegmentSuffix w) as [|a rest] eqn:Es; [contradiction|].
  cbn [String.length Nat.eqb Name] in E. subst e.
  cbn [result writer opened formats suffixes set_suffixes].
  split; [reflexivity|]. split; [reflexivity|]. split; [reflexivity|].
  apply lookup_insert_eq.
Qed.

(** When the format cannot open its consumer, [addField] returns that
    error; nothing is opened or registered, but the suffix number is used
    up and the field keeps the format name without a suffix. *)
Theorem addField_open_error w os field format err :
  postingsFormatForField w (Name field) = Some format ->
  attributes field !! PER_FIELD_FORMAT_KEY = None ->
  formats w !! instance format = None ->
  SegmentSuffix w = "" ->
  FieldsConsumer format
    (_suffix (formatName format) (pretty (nextSuffix w (formatName format)))) = Some err ->
  result (addField w os field) = Err err /\
  formats (writer (addField w os field)) = formats w /\
  opened (addField w os field) = os /\
  suffixes (writer (addField w os field)) !! formatName format
    = Some (nextSuffix w (formatName format)) /\
  Attribute PER_FIELD_FORMAT_KEY (field_after (addField w os field)) = formatName format /\
  attributes (field_after (addField w os field)) !! PER_FIELD_SUFFIX_KEY
    = attributes field !! PER_FIELD_SUFFIX_KEY.
Proof.
  intros Hpol Hfmt Hnew Houter Hopen.
  remember (addField w os field) as e eqn:E.
  unfold PostingsWriter.addField in E. rewrite Hpol in E.
  unfold PutAttribute in E. rewrite Hfmt in E.
  cbn [default negb String.eqb] in E. rewrite Hnew in E.
  unfold fullSegmentSuffix in E. rewrite Houter in E.
  cbn [String.length Nat.eqb Name] in E. rewrite Hopen in E. subst e.
  cbn [result writer opened formats suffixes set_suffixes field_after].
  split; [reflexivity|]. split; [reflexivity|]. split; [reflexivity|].
  split; [apply lookup_insert_eq|].
  unfold Attribute. cbn [attributes].
  split; [rewrite lookup_insert_eq; reflexivity|].
  apply lookup_insert_ne. discriminate.
Qed.

(** What one [addField] call can do to the routing table and the opened
    consumers: nothing, or register one new consumer, the next in order,
    for an instance that had none. *)
Lemma addField_formats_opened w os field :
  (formats (writer (addField w os field)) = formats w /\
   opened (addField w os field) = os) \/
  (exists i sfx seg,
     formats w !! i = None /\
     formats (writer (addField w os field))
       = <[i := {| consumer := length os; suffix := sfx |}]> (formats w) /\
     opened (addField w os field) = os ++ [seg]).
Proof.
  unfold PostingsWriter.addField.
  destruct (postingsFormatForField w (Name field)) as [format|]; [|left; split; reflexivity].
  destruct (PutAttribute PER_FIELD_FORMAT_KEY (formatName format) field) as [prev field1].
  destruct (negb (String.eqb prev "")); [left; split; reflexivity|].
  destruct (formats w !! instance format) as [c|] eqn:Hseen; [left; split; reflexivity|].
  destruct (fullSegmentSuffix _ _ _) as [seg|e|p]; try (left; split; reflexivity).
  destruct (FieldsConsumer format seg) as [err|]; [left; split; reflexivity|].
  right. exists (instance format), (nextSuffix w (formatName format)), seg.
  split; [exact Hseen|].
  unfold routeTo.
  destruct (PutAttribute PER_FIELD_SUFFIX_KEY _ field1) as [prev2 field2].
  destruct (assert (String.eqb prev2 "")) as [u|e|p]; split; reflexivity.
Qed.

(** Every consumer opened so far belongs to exactly one format instance
    of the routing table, and the table names no other consumer. *)
Local Abbreviation routed w os :=
  ((forall i c, formats w !! i = Some c -> (consumer c < length os)%nat) /\
   (forall i j c d, formats w !! i = Some c -> formats w !! j = Some d ->
      consumer c = consumer d -> i = j) /\
   (forall k, (k < length os)%nat ->
      exists i c, formats w !! i = Some c /\ consumer c = k)).

Lemma addField_keeps_routed w os field :
  routed w os ->
  routed (writer (addField w os field)) (opened (addField w os field)).
Proof.
  intros (Hlt & Hinj & Hsur).
  destruct (addField_formats_opened w os field)
    as [[-> ->]|(i & sfx & seg & Hnone & -> & ->)]; [auto|].
  split; [|split].
  - intros j c Hj. rewrite length_app. cbn [length].
    destruct (decide (i = j)) as [->|Hne].
    + rewrite lookup_insert_eq in Hj. injection Hj as <-. cbn. lia.
    + rewrite lookup_insert_ne in Hj by exact Hne.
      specialize (Hlt _ _ Hj). lia.
  - intros j1 j2 c d H1 H2 Heq.
    destruct (decide (i = j1)) as [->|Hne1]; destruct (decide (j1 = j2)) as [?|Hne2];
      try assumption.
    + rewrite lookup_insert_eq in H1. rewrite lookup_insert_ne in H2 by exact Hne2.
      injection H1 as <-. cbn in Heq. specialize (Hlt _ _ H2). lia.
    + rewrite lookup_insert_ne in H1 by exact Hne1.
      destruct (decide (i = j2)) as [->|Hne3].
      * rewrite lookup_insert_eq in H2. injection H2 as <-. cbn in Heq.
        specialize (Hlt _ _ H1). lia.
      * rewrite lookup_insert_ne in H2 by exact Hne3. eapply Hinj; eassumption.
  - intros k Hk. rewrite length_app in Hk. cbn [length] in Hk.
    destruct (decide (k = length os)) as [->|Hne].
    + exists i, {| consumer := length os; suffix := sfx |}.
      split; [apply lookup_insert_eq | reflexivity].
    + destruct (Hsur k ltac:(lia)) as (j & c & Hj & Hc).
      exists j, c. split; [|exact Hc].
      rewrite lookup_insert_ne; [exact Hj|]. congruence.
Qed.

Lemma addFields_keeps_routed fs : forall w os,
  routed w os -> routed (addFields fs w os).1 (addFields fs w os).2.
Proof.
  induction fs as [|f fs IH]; intros w os H; [exact H|].
  unfold Closing.addFields. cbn [foldl fst snd].
  apply (IH (writer (addField w os f)) (opened (addField w os f))).
  apply addField_keeps_routed, H.
Qed.

Lemma routed_items w (os : list string) :
  routed w os -> writerItems w ≡ₚ seq 0 (length os).
Proof.
  intros (Hlt & Hinj & Hsur). apply NoDup_Permutation.
  - unfold writerItems. apply NoDup_fmap_2_strong; [|apply NoDup_map_to_list].
    intros [i c] [j d] Hi Hj Heq. cbn in Heq.
    apply elem_of_map_to_list in Hi, Hj.
    assert (i = j) by (eapply Hinj; eassumption). subst j.
    f_equal. congruence.
  - apply NoDup_seq.
  - intros k. unfold writerItems. rewrite list_elem_of_fmap, elem_of_seq. split.
    + intros ([i c] & -> & Hel). apply elem_of_map_to_list in Hel.
      specialize (Hlt _ _ Hel). cbn. lia.
    + intros [_ Hk]. destruct (Hsur k ltac:(lia)) as (i & c & Hi & Hc).
      exists (i, c). split; [symmetry; exact Hc|]. apply elem_of_map_to_list, Hi.
Qed.

(** After any run of [addField] calls on a new writer, whatever each
    call returned, [Close] hands [util.Close] every consumer opened so far
    exactly once, and nothing else. *)
Theorem Close_covers_opened_consumers policy segmentSuffix fs :
  writerItems (addFields fs (newPerFieldPostingsWriter policy segmentSuffix) []).1
  ≡ₚ seq 0 (length (addFields fs (newPerFieldPostingsWriter policy segmentSuffix) []).2).
Proof.
  apply routed_items, addFields_keeps_routed.
  unfold newPerFieldPostingsWriter. cbn [formats length].
  split; [|split].
  - intros i c H. rewrite lookup_empty in H. discriminate.
  - intros i j c d H. rewrite lookup_empty in H. discriminate.
  - intros k Hk. lia.
Qed.

End PostingsWriterEdges.

Section PostingsWriterEdgeScenarios.
Import Go Field PostingsWriter Samples MoreSamples.

(** title on a new writer: the instance named Lucene41 is new, so it
    gets suffix 0 and consumer 0 under Lucene41_0. *)
Lemma addField_new_instance_title :
  formats (writer (addFieldTo newWriter "title")) !! 0%nat
    = Some {| consumer := 0; suffix := 0 |} /\
  opened (addFieldTo newWriter "title") = ["Lucene41_0"] /\
  Attribute PER_FIELD_SUFFIX_KEY (field_after (addFieldTo newWriter "title")) = "0".
Proof.
  destruct (addField_new_instance opensAlways acceptsAlways
              (writer newWriter) (opened newWriter) (plainField "title") (lucene41 0))
    as (A & _ & _ & B & _ & C & _); try reflexivity.
  exact (conj A (conj B C)).
Defined.

(** body after title resolves to the instance already routed. *)
Lemma addField_seen_instance_body :
  result (addFieldTo (addFieldTo newWriter "title") "body") = Panic NotImplementedYet /\
  opened (addFieldTo (addFieldTo newWriter "title") "body") = ["Lucene41_0"].
Proof.
  destruct (addField_seen_instance opensAlways acceptsAlways
              (writer (addFieldTo newWriter "title"))
              (opened (addFieldTo newWriter "title"))
              (plainField "body") (lucene41 0) {| consumer := 0; suffix := 0 |})
    as (A & _ & B & _); try reflexivity.
  exact (conj A B).
Defined.

(** Handing the title record back to [addField] after it was added. *)
Lemma addField_format_written_once_title :
  result (addField opensAlways acceptsAlways (writer newWriter) []
            (field_after (addFieldTo newWriter "title")))
  = Panic (AssertionFailed "").
Proof.
  refine (proj1 (addField_format_written_once opensAlways acceptsAlways
                   (writer newWriter) [] (field_after (addFieldTo newWriter "title"))
                   (lucene41 0) "Lucene41" _ _ _)).
  - reflexivity.
  - vm_compute. reflexivity.
  - intros H. discriminate H.
Defined.

(** title on a writer nested under Lucene41_0. *)
Lemma addField_cannot_embed_title :
  result (addField opensAlways acceptsAlways nestedWriter [] (plainField "title"))
  = Panic (CannotEmbed "title").
Proof.
  refine (proj1 (addField_cannot_embed opensAlways acceptsAlways
                   nestedWriter [] (plainField "title") (lucene41 0) _ _ _ _)).
  - reflexivity.
  - reflexivity.
  - reflexivity.
  - intros H. discriminate H.
Defined.

(** title when the consumer cannot be opened: the error comes back and
    suffix 0 is used up. *)
Lemma addField_open_error_title :
  result (addField opensNever acceptsAlways (writer newWriter) [] (plainField "title"))
    = Err "disk full"%string /\
  suffixes (writer (addField opensNever acceptsAlways (writer newWriter) []
                      (plainField "title"))) !! "Lucene41"%string = Some 0.
Proof.
  destruct (addField_open_error opensNever acceptsAlways
              (writer newWriter) [] (plainField "title") (lucene41 0)
              "disk full"%string)
    as (A & _ & _ & B & _); try reflexivity.
  exact (conj A B).
Defined.

End PostingsWriterEdgeScenarios.

(** ** More on the read side: which producer serves which field *)

Section PostingsReaderRouting.
Import Go Field Producers PostingsReader Closing.
Variable FieldsProducer : string -> string -> option error.
Variable closeError : nat -> option error.

Local Abbreviation visit := (visit FieldsProducer).
Local Abbreviation visitAll := (visitAll FieldsProducer).
Local Abbreviation newPerFieldPostingsReader :=
  (newPerFieldPostingsReader FieldsProducer closeError).

(** The segment suffix a field record asks for. *)
Local Abbreviation segmentSuffixOf fi :=
  (Attribute PER_FIELD_FORMAT_KEY fi +:+ "_" +:+ Attribute PER_FIELD_SUFFIX_KEY fi).

(** Every producer in [formats] was opened, from position [base] on,
    for the segment suffix it is filed under; every producer in [fields]
    is one of [formats]. *)
Local Abbreviation filed base ans w :=
  ((forall k p, formats ans !! k = Some p ->
      opened w !! p = Some k /\ (base <= p)%nat) /\
   (forall f p, fields ans !! f = Some p -> exists k, formats ans !! k = Some p)).

Lemma visit_routing fi ans w r ans' w' base :
  visit fi ans w = (r, ans', w') ->
  (base <= length (opened w))%nat ->
  filed base ans w ->
  filed base ans' w' /\
  (length (opened w) <= length (opened w'))%nat /\
  (forall k p, formats ans !! k = Some p -> formats ans' !! k = Some p) /\
  (forall f p, fields ans !! f = Some p -> f <> Name fi -> fields ans' !! f = Some p) /\
  (r = Ok tt -> IsIndexed fi = true -> Attribute PER_FIELD_FORMAT_KEY fi <> "" ->
   exists p, fields ans' !! Name fi = Some p /\
             formats ans' !! segmentSuffixOf fi = Some p).
Proof.
  intros Hv Hbase [Hfmt Hfld].
  assert (Hsame : (r, ans', w') = (Ok tt, ans, w) \/ (exists e, (r, ans', w') = (Err e, ans, w))
                  \/ (exists c, (r, ans', w') = (Panic c, ans, w)) ->
          (r = Ok tt -> IsIndexed fi = true -> Attribute PER_FIELD_FORMAT_KEY fi <> "" ->
           False) ->
          filed base ans' w' /\
          (length (opened w) <= length (opened w'))%nat /\
          (forall k p, formats ans !! k = Some p -> formats ans' !! k = Some p) /\
          (forall f p, fields ans !! f = Some p -> f <> Name fi -> fields ans' !! f = Some p) /\
          (r = Ok tt -> IsIndexed fi = true -> Attribute PER_FIELD_FORMAT_KEY fi <> "" ->
           exists p, fields ans' !! Name fi = Some p /\
                     formats ans' !! segmentSuffixOf fi = Some p)).
  { intros Heq Hno.
    assert (ans' = ans /\ w' = w) as [-> ->].
    { destruct Heq as [[= _ -> ->]|[[e [= _ -> ->]]|[c [= _ -> ->]]]]; auto. }
    split; [split; assumption|]. split; [lia|]. split; [auto|]. split; [auto|].
    intros H1 H2 H3. destruct (Hno H1 H2 H3). }
  revert Hv. unfold PostingsReader.visit.
  destruct (IsIndexed fi) eqn:Hidx;
    [|intros [= <- <- <-]; apply Hsame; [left; reflexivity | intros _ [=]]].
  destruct (String.eqb_spec (Attribute PER_FIELD_FORMAT_KEY fi) "") as [Hf|Hf];
    [intros [= <- <- <-]; apply Hsame; [left; reflexivity | intros _ _ H; exact (H Hf)]|].
  destruct (String.eqb (Attribute PER_FIELD_SUFFIX_KEY fi) ""); cbn [negb assert assert2];
    [intros [= <- <- <-]; apply Hsame;
       [right; right; eexists; reflexivity | intros [=]]|].
  destruct (formats ans !! segmentSuffixOf fi) as [fp|] eqn:Hseg.
  - intros [= <- <- <-]. cbn [fields formats].
    split; [split|].
    + exact Hfmt.
    + intros f p Hp. destruct (decide (f = Name fi)) as [->|Hne].
      * rewrite lookup_insert_eq in Hp. injection Hp as <-. eauto.
      * rewrite lookup_insert_ne in Hp by congruence. eauto.
    + split; [lia|]. split; [auto|]. split.
      * intros f p Hp Hne. rewrite lookup_insert_ne by congruence. exact Hp.
      * intros _ _ _. exists fp. split; [apply lookup_insert_eq | exact Hseg].
  - destruct (FieldsProducer (Attribute PER_FIELD_FORMAT_KEY fi) (segmentSuffixOf fi))
      as [err|] eqn:Hopen.
    + intros [= <- <- <-]. apply Hsame; [right; left; eexists; reflexivity | intros [=]].
    + unfold open. intros [= <- <- <-]. cbn [fields formats opened].
      assert (Hkeep : forall k p, formats ans !! k = Some p ->
                <[segmentSuffixOf fi := length (opened w)]> (formats ans) !! k = Some p).
      { intros k p Hk. rewrite lookup_insert_ne; [exact Hk|]. congruence. }
      split; [split|].
      * intros k p Hp. destruct (decide (k = segmentSuffixOf fi)) as [->|Hne].
        -- rewrite lookup_insert_eq in Hp. injection Hp as <-.
           split; [|exact Hbase].
           rewrite lookup_app_r by lia. rewrite Nat.sub_diag. reflexivity.
        -- rewrite lookup_insert_ne in Hp by congruence.
           destruct (Hfmt _ _ Hp) as [Ho Hb]. split; [|exact Hb].
           rewrite lookup_app_l; [exact Ho|]. eapply lookup_lt_Some, Ho.
      * intros f p Hp. destruct (decide (f = Name fi)) as [->|Hne].
        -- rewrite lookup_insert_eq in Hp. injection Hp as <-.
           exists (segmentSuffixOf fi). apply lookup_insert_eq.
        -- rewrite lookup_insert_ne in Hp by congruence.
           destruct (Hfld _ _ Hp) as [k Hk]. exists k. apply Hkeep, Hk.
      * split; [rewrite length_app; lia|]. split; [exact Hkeep|]. split.
        -- intros f p Hp Hne. rewrite lookup_insert_ne by congruence. exact Hp.
        -- intros _ _ _. exists (length (opened w)).
           split; apply lookup_insert_eq.
Qed.

Lemma visitAll_routing fis : forall ans w r ans' w' base,
  visitAll fis ans w = (r, ans', w') ->
  (base <= length (opened w))%nat ->
  filed base ans w ->
  filed base ans' w' /\
  (r = Ok tt -> NoDup (Name <$> fis) ->
   forall fi, fi ∈ fis -> IsIndexed fi = true ->
     Attribute PER_FIELD_FORMAT_KEY fi <> "" ->
     exists p, fields ans' !! Name fi = Some p /\
               formats ans' !! segmentSuffixOf fi = Some p) /\
  (forall k p, formats ans !! k = Some p -> formats ans' !! k = Some p) /\
  (forall f p, fields ans !! f = Some p -> f ∉ Name <$> fis ->
     fields ans' !! f = Some p).
Proof.
  induction fis as [|fi fis IH]; intros ans w r ans' w' base;
    cbn [PostingsReader.visitAll].
  - intros [= <- <- <-] Hbase Hfiled. split; [exact Hfiled|].
    split; [intros _ _ fi Hel; apply elem_of_nil in Hel; contradiction|]. auto.
  - destruct (visit fi ans w) as [[r1 ans1] w1] eqn:Hv. intros Hrest Hbase Hfiled.
    destruct (visit_routing _ _ _ _ _ _ base Hv Hbase Hfiled)
      as (Hfiled1 & Hlen1 & Hfm1 & Hfl1 & Hmap1).
    destruct r1 as [[]|e1|c1].
    + destruct (IH _ _ _ _ _ base Hrest ltac:(lia) Hfiled1)
        as (Hfiled2 & Hmap2 & Hfm2 & Hfl2).
      split; [exact Hfiled2|]. split; [|split].
      * intros Hr Hnd fj Hel Hidx Hf. rewrite fmap_cons in Hnd.
        apply NoDup_cons in Hnd as [Hnotin Hnd].
        apply elem_of_cons in Hel as [->|Hel].
        -- destruct (Hmap1 eq_refl Hidx Hf) as (p & Hp1 & Hp2).
           exists p. split; [apply Hfl2; assumption | apply Hfm2; assumption].
        -- apply (Hmap2 Hr Hnd fj Hel Hidx Hf).
      * intros k p Hk. apply Hfm2, Hfm1, Hk.
      * intros f p Hp Hnotin. rewrite fmap_cons in Hnotin.
        apply not_elem_of_cons in Hnotin as [Hne Hnotin].
        apply Hfl2; [|exact Hnotin]. apply Hfl1; assumption.
    + injection Hrest as <- <- <-. split; [exact Hfiled1|].
      split; [intros [=]|]. split; [exact Hfm1|].
      intros f p Hp Hnotin. rewrite fmap_cons in Hnotin.
      apply not_elem_of_cons in Hnotin as [Hne _]. apply Hfl1; assumption.
    + injection Hrest as <- <- <-. split; [exact Hfiled1|].
      split; [intros [=]|]. split; [exact Hfm1|].
      intros f p Hp Hnotin. rewrite fmap_cons in Hnotin.
      apply not_elem_of_cons in Hnotin as [Hne _]. apply Hfl1; assumption.
Qed.

Lemma filed_empty base w :
  filed base {| fields := ∅; formats := ∅ |} w.
Proof.
  split.
  - intros k p H. cbn [formats] in H. rewrite lookup_empty in H. discriminate.
  - intros f p H. cbn [fields] in H. rewrite lookup_empty in H. discriminate.
Qed.

(** A construction that succeeds over records with pairwise different
    names maps every indexed record that carries a format name to the
    producer opened for its segment suffix [formatName_suffix]; two such
    records with the same segment suffix are served by the same
    producer. *)
Theorem newPerFieldPostingsReader_shares_producers fis w r w' :
  newPerFieldPostingsReader fis w = (Ok r, w') ->
  NoDup (Name <$> fis) ->
  (forall fi, fi ∈ fis -> IsIndexed fi = true ->
     Attribute PER_FIELD_FORMAT_KEY fi <> "" ->
     exists p, fields r !! Name fi = Some p /\
               formats r !! segmentSuffixOf fi = Some p /\
               opened w' !! p = Some (segmentSuffixOf fi)) /\
  (forall fi fj, fi ∈ fis -> fj ∈ fis ->
     IsIndexed fi = true -> IsIndexed fj = true ->
     Attribute PER_FIELD_FORMAT_KEY fi <> "" ->
     Attribute PER_FIELD_FORMAT_KEY fj <> "" ->
     segmentSuffixOf fi = segmentSuffixOf fj ->
     fields r !! Name fi = fields r !! Name fj).
Proof.
  unfold PostingsReader.newPerFieldPostingsReader.
  destruct (PostingsReader.visitAll _ fis _ w) as [[r1 ans1] w1] eqn:Hv.
  destruct (visitAll_routing _ _ _ _ _ _ (length (opened w)) Hv
              ltac:(lia) (filed_empty _ _)) as ([Hfmt _] & Hmap & _).
  destruct r1 as [[]|e1|c1]; intros [= <- <-] Hnd.
  assert (Hall : forall fi, fi ∈ fis -> IsIndexed fi = true ->
            Attribute PER_FIELD_FORMAT_KEY fi <> "" ->
            exists p, fields ans1 !! Name fi = Some p /\
                      formats ans1 !! segmentSuffixOf fi = Some p /\
                      opened w1 !! p = Some (segmentSuffixOf fi)).
  { intros fi Hel Hidx Hf. destruct (Hmap eq_refl Hnd fi Hel Hidx Hf) as (p & H1 & H2).
    exists p. split; [exact H1|]. split; [exact H2|]. apply (Hfmt _ _ H2). }
  split; [exact Hall|].
  intros fi fj Hi Hj Hxi Hxj Hfi Hfj Hseg.
  destruct (Hall fi Hi Hxi Hfi) as (p & -> & Hp & _).
  destruct (Hall fj Hj Hxj Hfj) as (q & -> & Hq & _).
  rewrite Hseg in Hp. congruence.
Qed.

Lemma filed_items base ans w :
  filed base ans w ->
  (forall p : nat, (base <= p < length (opened w))%nat ->
     exists k : string, formats ans !! k = Some p) ->
  postingsReaderItems ans ≡ₚ seq base (length (opened w) - base).
Proof.
  intros [Hfmt _] Hreg. apply NoDup_Permutation.
  - unfold postingsReaderItems. apply NoDup_fmap_2_strong; [|apply NoDup_map_to_list].
    intros [k p] [k' p'] Hk Hk' Heq. cbn in Heq. subst p'.
    apply elem_of_map_to_list in Hk, Hk'.
    destruct (Hfmt _ _ Hk) as [H1 _]. destruct (Hfmt _ _ Hk') as [H2 _].
    f_equal. congruence.
  - apply NoDup_seq.
  - intros p. unfold postingsReaderItems. rewrite list_elem_of_fmap, elem_of_seq. split.
    + intros ([k q] & -> & Hel). apply elem_of_map_to_list in Hel.
      destruct (Hfmt _ _ Hel) as [Ho Hb]. apply lookup_lt_Some in Ho. cbn. lia.
    + intros Hp. destruct (Hreg p ltac:(lia)) as [k Hk].
      exists (k, p). split; [reflexivity|]. apply elem_of_map_to_list, Hk.
Qed.

(** Whatever the construction's result, the producers it opened are
    exactly the values of [formats], each once. So after a success
    [Close] hands [util.Close] every producer the construction opened
    exactly once (and the construction itself closed none), and after a
    failure the deferred cleanup has closed every one of them exactly
    once. *)
Theorem newPerFieldPostingsReader_closes_each_once fis w res w' :
  newPerFieldPostingsReader fis w = (res, w') ->
  match res with
  | Ok r =>
      closed w' = closed w /\
      postingsReaderItems r
        ≡ₚ seq (length (opened w)) (length (opened w') - length (opened w))
  | _ =>
      exists items,
        closed w' = closed w ++ items /\
        items ≡ₚ seq (length (opened w)) (length (opened w') - length (opened w))
  end.
Proof.
  unfold PostingsReader.newPerFieldPostingsReader.
  destruct (PostingsReader.visitAll _ fis _ w) as [[r1 ans1] w1] eqn:Hv.
  destruct (visitAll_routing _ _ _ _ _ _ (length (opened w)) Hv
              ltac:(lia) (filed_empty _ _)) as (Hfiled & _).
  destruct (visitAll_steps _ _ _ _ _ _ _ Hv) as (Hc & Hreg & _).
  assert (Hitems : postingsReaderItems ans1
                   ≡ₚ seq (length (opened w)) (length (opened w1) - length (opened w))).
  { apply filed_items; [exact Hfiled|]. apply Hreg. intros q Hq. lia. }
  destruct r1 as [[]|e1|c1]; intros [= <- <-].
  - split; assumption.
  - exists (postingsReaderItems ans1). unfold cleanup, CloseWhileSuppressingError.
    cbn [closed opened]. rewrite Hc. split; [reflexivity | exact Hitems].
  - exists (postingsReaderItems ans1). unfold cleanup, CloseWhileSuppressingError.
    cbn [closed opened]. rewrite Hc. split; [reflexivity | exact Hitems].
Qed.

End PostingsReaderRouting.

Section PostingsReaderRoutingScenarios.
Import Go Field Producers Samples ReaderSamples.

(** price and cost share Lucene45_0: one producer is opened and serves
    both. *)
Lemma newPerFieldPostingsReader_shares_price_cost :
  PostingsReader.fields sharedReader !! "price"
  = PostingsReader.fields sharedReader !! "cost".
Proof.
  assert (Hnew : PostingsReader.newPerFieldPostingsReader opensEvery closesQuietly
                   priceAndCost nothingOpen = (Ok sharedReader, oneProducer)).
  { vm_compute. reflexivity. }
  assert (Hnd : NoDup (Name <$> priceAndCost)).
  { apply NoDup_cons. split.
    - intros H. apply list_elem_of_singleton in H. discriminate H.
    - apply NoDup_singleton. }
  refine (proj2 (newPerFieldPostingsReader_shares_producers opensEvery closesQuietly
                   priceAndCost nothingOpen sharedReader oneProducer Hnew Hnd)
            (storedField "price" "Lucene45" "0") (storedField "cost" "Lucene45" "0")
            _ _ _ _ _ _ _).
  - apply elem_of_cons. left. reflexivity.
  - apply elem_of_cons. right. apply elem_of_cons. left. reflexivity.
  - reflexivity.
  - reflexivity.
  - vm_compute. intros H. discriminate H.
  - vm_compute. intros H. discriminate H.
  - reflexivity.
Defined.

(** price opens, stock fails: the cleanup closes producer 0, once. *)
Lemma newPerFieldPostingsReader_closes_price :
  exists items,
    [0%nat] = [] ++ items /\ items ≡ₚ seq 0 (1 - 0).
Proof.
  exact (newPerFieldPostingsReader_closes_each_once brokenFails closesQuietly
           priceThenStock nothingOpen (Err "cannot open Broken_0"%string)
           {| opened := ["Lucene45_0"]; closed := [0%nat] |}
           postings_reader_closes_on_failure).
Defined.

(** price opens, stock fails: producer 0 has been closed when the error
    comes back. *)
Lemma newPerFieldPostingsReader_failure_price :
  0%nat ∈ closed {| opened := ["Lucene45_0"]; closed := [0%nat] |}.
Proof.
  refine (proj1 (newPerFieldPostingsReader_failure brokenFails closesQuietly
                   priceThenStock nothingOpen (Err "cannot open Broken_0"%string)
                   {| opened := ["Lucene45_0"]; closed := [0%nat] |}
                   postings_reader_closes_on_failure _) 0%nat _).
  - intros ans H. discriminate H.
  - cbn. lia.
Defined.

End PostingsReaderRoutingScenarios.

(** ** More on the read side: the doc-values constructor *)

Section DocValuesReaderRouting.
Import Go Field Producers DocValuesReader Closing.
Variable LoadDocValuesProducer : string -> string -> option error.

Local Abbreviation visit := (visit LoadDocValuesProducer).
Local Abbreviation visitAll := (visitAll LoadDocValuesProducer).
Local Abbreviation newPerFieldDocValuesReader :=
  (newPerFieldDocValuesReader LoadDocValuesProducer).

Local Abbreviation segmentSuffixOf fi :=
  (Attribute PER_FIELD_FORMAT_KEY fi +:+ "_" +:+ Attribute PER_FIELD_SUFFIX_KEY fi).

(** The producers opened from position [base] on are exactly the values
    of [formats], each filed under the segment suffix it was opened
    for. *)
Local Abbreviation filed base ans w :=
  ((forall k p, formats ans !! k = Some p ->
      opened w !! p = Some k /\ (base <= p)%nat) /\
   (forall p : nat, (base <= p)%nat /\ lt p (length (opened w)) ->
      exists k : string, formats ans !! k = Some p)).

Lemma dv_visit_filed fi ans w ans' w' base :
  visit fi ans w = (ans', w') ->
  (base <= length (opened w))%nat ->
  filed base ans w ->
  filed base ans' w' /\ (length (opened w) <= length (opened w'))%nat.
Proof.
  intros Hv Hbase [Hfmt Hreg]. revert Hv. unfold DocValuesReader.visit.
  destruct (HasDocValues fi); [|intros [= <- <-]; split; [split; assumption | lia]].
  destruct (String.eqb (Attribute PER_FIELD_FORMAT_KEY fi) "");
    [intros [= <- <-]; split; [split; assumption | lia]|].
  destruct (formats ans !! segmentSuffixOf fi) as [p|] eqn:Hseg;
    [intros [= <- <-]; cbn [formats]; split; [split; assumption | lia]|].
  destruct (LoadDocValuesProducer (Attribute PER_FIELD_FORMAT_KEY fi) (segmentSuffixOf fi));
    [intros [= <- <-]; cbn [formats]; split; [split; assumption | lia]|].
  unfold open. intros [= <- <-]. cbn [formats opened].
  split; [split|rewrite length_app; lia].
  - intros k p Hp. destruct (decide (k = segmentSuffixOf fi)) as [->|Hne].
    + rewrite lookup_insert_eq in Hp. injection Hp as <-. split; [|exact Hbase].
      rewrite lookup_app_r by lia. rewrite Nat.sub_diag. reflexivity.
    + rewrite lookup_insert_ne in Hp by congruence.
      destruct (Hfmt _ _ Hp) as [Ho Hb]. split; [|exact Hb].
      rewrite lookup_app_l; [exact Ho|]. eapply lookup_lt_Some, Ho.
  - intros p Hp. rewrite length_app in Hp. cbn [length] in Hp.
    destruct (decide (p = length (opened w))) as [->|Hne].
    + exists (segmentSuffixOf fi). apply lookup_insert_eq.
    + destruct (Hreg p ltac:(lia)) as [k Hk]. exists k.
      rewrite lookup_insert_ne; [exact Hk|]. congruence.
Qed.

Lemma dv_visitAll_filed fis : forall ans w ans' w' base,
  visitAll fis ans w = (ans', w') ->
  (base <= length (opened w))%nat ->
  filed base ans w ->
  filed base ans' w'.
Proof.
  induction fis as [|fi fis IH]; intros ans w ans' w' base; cbn [DocValuesReader.visitAll].
  - intros [= <- <-] _ H. exact H.
  - destruct (visit fi ans w) as [ans1 w1] eqn:Hv. intros Hrest Hbase Hfiled.
    destruct (dv_visit_filed _ _ _ _ _ base Hv Hbase Hfiled) as [Hfiled1 Hlen].
    apply (IH _ _ _ _ base Hrest); [lia | exact Hfiled1].
Qed.

(** The doc-values constructor returns a reader and no error on every
    input, whatever the loads answered, and closes nothing; [Close] on
    that reader hands [util.Close] every producer the construction
    opened exactly once. *)
Theorem newPerFieldDocValuesReader_never_fails fis w :
  exists r,
    (newPerFieldDocValuesReader fis w).1 = Ok r /\
    closed (newPerFieldDocValuesReader fis w).2 = closed w /\
    docValuesReaderItems r
      ≡ₚ seq (length (opened w))
           (length (opened (newPerFieldDocValuesReader fis w).2) - length (opened w)).
Proof.
  unfold DocValuesReader.newPerFieldDocValuesReader.
  destruct (DocValuesReader.visitAll _ fis _ w) as [ans w'] eqn:Hv.
  exists ans. cbn [fst snd]. split; [reflexivity|].
  split; [apply (dv_visitAll_steps _ _ _ _ _ _ Hv)|].
  destruct (dv_visitAll_filed _ _ _ _ _ (length (opened w)) Hv) as [Hfmt Hreg].
  - lia.
  - split.
    + intros k p H. cbn [formats] in H. rewrite lookup_empty in H. discriminate.
    + intros p Hp. lia.
  - apply NoDup_Permutation.
    + unfold docValuesReaderItems. apply NoDup_fmap_2_strong; [|apply NoDup_map_to_list].
      intros [k p] [k' p'] Hk Hk' Heq. cbn in Heq. subst p'.
      apply elem_of_map_to_list in Hk, Hk'.
      destruct (Hfmt _ _ Hk) as [H1 _]. destruct (Hfmt _ _ Hk') as [H2 _].
      f_equal. congruence.
    + apply NoDup_seq.
    + intros p. unfold docValuesReaderItems.
      rewrite list_elem_of_fmap, elem_of_seq. split.
      * intros ([k q] & -> & Hel). apply elem_of_map_to_list in Hel.
        destruct (Hfmt _ _ Hel) as [Ho Hb]. apply lookup_lt_Some in Ho. cbn. lia.
      * intros Hp. destruct (Hreg p ltac:(lia)) as [k Hk].
        exists (k, p). split; [reflexivity|]. apply elem_of_map_to_list, Hk.
Qed.

(** Nothing loaded yet, and every field mapped so far is mapped to a
    nil producer. *)
Local Abbreviation allNil ans :=
  (formats ans = ∅ /\ forall f v, fields ans !! f = Some v -> v = None).

Lemma dv_visit_allNil fi ans w :
  (forall a b, LoadDocValuesProducer a b <> None) ->
  allNil ans ->
  allNil (visit fi ans w).1 /\ (visit fi ans w).2 = w /\
  (forall f, fields ans !! f = Some None -> fields (visit fi ans w).1 !! f = Some None) /\
  (HasDocValues fi = true -> Attribute PER_FIELD_FORMAT_KEY fi <> "" ->
   fields (visit fi ans w).1 !! Name fi = Some None).
Proof.
  intros Hnever [Hempty Hnil]. unfold DocValuesReader.visit.
  destruct (HasDocValues fi);
    [|cbn [fst snd]; split; [split; assumption|]; split; [reflexivity|]; split;
      [auto | intros [=]]].
  destruct (String.eqb_spec (Attribute PER_FIELD_FORMAT_KEY fi) "") as [Hf|Hf];
    [cbn [fst snd]; split; [split; assumption|]; split; [reflexivity|]; split;
      [auto | intros _ H; destruct (H Hf)]|].
  rewrite Hempty, lookup_empty.
  destruct (LoadDocValuesProducer (Attribute PER_FIELD_FORMAT_KEY fi) (segmentSuffixOf fi))
    as [e|] eqn:Hload; [|destruct (Hnever _ _ Hload)].
  rewrite lookup_empty. cbn [fst snd fields formats].
  split; [split; [reflexivity|]|].
  - intros f v Hv. destruct (decide (f = Name fi)) as [->|Hne].
    + rewrite lookup_insert_eq in Hv. congruence.
    + rewrite lookup_insert_ne in Hv by congruence. eapply Hnil, Hv.
  - split; [reflexivity|]. split.
    + intros f Hf'. destruct (decide (f = Name fi)) as [->|Hne].
      * apply lookup_insert_eq.
      * rewrite lookup_insert_ne by congruence. exact Hf'.
    + intros _ _. apply lookup_insert_eq.
Qed.

Lemma dv_visitAll_allNil fis : forall ans w,
  (forall a b, LoadDocValuesProducer a b <> None) ->
  allNil ans ->
  allNil (visitAll fis ans w).1 /\ (visitAll fis ans w).2 = w /\
  (forall f, fields ans !! f = Some None ->
     fields (visitAll fis ans w).1 !! f = Some None) /\
  (forall fi, fi ∈ fis -> HasDocValues fi = true ->
     Attribute PER_FIELD_FORMAT_KEY fi <> "" ->
     fields (visitAll fis ans w).1 !! Name fi = Some None).
Proof.
  induction fis as [|fi fis IH]; intros ans w Hnever Hnil; cbn [DocValuesReader.visitAll].
  - cbn [fst snd]. split; [exact Hnil|]. split; [reflexivity|]. split; [auto|].
    intros fi Hel. apply elem_of_nil in Hel. contradiction.
  - destruct (dv_visit_allNil fi ans w Hnever Hnil) as (Hnil1 & Hw1 & Hkeep1 & Hmap1).
    destruct (visit fi ans w) as [ans1 w1] eqn:Hv. cbn [fst snd] in *. subst w1.
    destruct (IH ans1 w Hnever Hnil1) as (Hnil2 & Hw2 & Hkeep2 & Hmap2).
    split; [exact Hnil2|]. split; [exact Hw2|]. split; [auto|].
    intros fj Hel Hdv Hf. apply elem_of_cons in Hel as [->|Hel].
    + apply Hkeep2, Hmap1; assumption.
    + apply Hmap2; assumption.
Qed.

(** When no producer can be loaded, the constructor still returns a
    reader: nothing is opened, every field record with doc values and a
    format name is mapped to a nil producer, and each of the four queries
    for such a field panics on the nil producer. *)
Theorem newPerFieldDocValuesReader_all_loads_fail
    (N B S SS : Type)
    (pn : nat -> FieldInfo -> outcome (option N))
    (pb : nat -> FieldInfo -> outcome (option B))
    (ps : nat -> FieldInfo -> outcome (option S))
    (pss : nat -> FieldInfo -> outcome (option SS)) fis w :
  (forall a b, LoadDocValuesProducer a b <> None) ->
  exists r,
    newPerFieldDocValuesReader fis w = (Ok r, w) /\
    formats r = ∅ /\
    forall fi, fi ∈ fis -> HasDocValues fi = true ->
      Attribute PER_FIELD_FORMAT_KEY fi <> "" ->
      fields r !! Name fi = Some None /\
      Numeric pn r fi = Panic NilDereference /\
      Binary pb r fi = Panic NilDereference /\
      Sorted ps r fi = Panic NilDereference /\
      SortedSet pss r fi = Panic NilDereference.
Proof.
  intros Hnever. unfold DocValuesReader.newPerFieldDocValuesReader.
  destruct (dv_visitAll_allNil fis {| fields := ∅; formats := ∅ |} w Hnever)
    as ([Hempty _] & Hw & _ & Hmap).
  { split; [reflexivity|]. intros f v H. cbn [fields] in H.
    rewrite lookup_empty in H. discriminate. }
  destruct (DocValuesReader.visitAll _ fis _ w) as [ans w'] eqn:Hv.
  cbn [fst snd] in *. subst w'. exists ans.
  split; [reflexivity|]. split; [exact Hempty|].
  intros fi Hel Hdv Hf. specialize (Hmap fi Hel Hdv Hf).
  unfold Numeric, Binary, Sorted, SortedSet. rewrite Hmap. repeat split.
Qed.

End DocValuesReaderRouting.

Section DocValuesReaderRoutingScenarios.
Import Go Field Producers Samples MoreSamples ReaderSamples.

(** price and cost when nothing can be loaded: the query for price
    panics on the nil producer. *)
Lemma newPerFieldDocValuesReader_all_loads_fail_price :
  DocValuesReader.Numeric failingQuery nilReader (storedField "price" "Lucene45" "0")
  = Panic NilDereference.
Proof.
  destruct (newPerFieldDocValuesReader_all_loads_fail loadsNever Z Z Z Z
              failingQuery failingQuery failingQuery failingQuery
              priceAndCost nothingOpen) as (r & Hr & _ & Hq).
  - intros a b H. discriminate H.
  - assert (r = nilReader) as ->.
    { unfold DocValuesReader.newPerFieldDocValuesReader in Hr. unfold nilReader.
      destruct (DocValuesReader.visitAll loadsNever priceAndCost _ nothingOpen)
        as [ans w']. cbn [fst]. congruence. }
    refine (proj1 (proj2 (Hq (storedField "price" "Lucene45" "0") _ _ _))).
    + apply elem_of_cons. left. reflexivity.
    + reflexivity.
    + vm_compute. intros H. discriminate H.
Defined.

End DocValuesReaderRoutingScenarios.

(** ** The summing loop of [SizeInBytes], for a [Files()] that answers *)

Section SizeInBytesLoopScenarios.
Import Go CommitInfo Samples SizeSamples.

(** When the lengths add up to -1, the value of the unset cache, the
    call returns -1 and the record is indistinguishable from one never
    computed: the next call asks the directory for every file again. *)
Theorem SizeInBytesWith_sum_is_sentinel files si fs asked :
  sizeInBytes si = -1 -> files si = Ok fs ->
  files (set_sizeInBytes (-1) si) = Ok fs ->
  sumFileLengths (Dir (info si)) fs 0 = (inl (-1), asked) ->
  SizeInBytesWith files si = (Ok (-1), set_sizeInBytes (-1) si, fs) /\
  SizeInBytesWith files (set_sizeInBytes (-1) si)
    = (Ok (-1), set_sizeInBytes (-1) si, fs).
Proof.
  intros Hc Hf Hf' Hs.
  assert (Hasked : asked = fs) by (eapply sumFileLengths_asked, Hs). subst asked.
  split.
  - unfold SizeInBytesWith. rewrite Hc, Hf, Hs. reflexivity.
  - unfold SizeInBytesWith. cbn [sizeInBytes set_sizeInBytes info].
    rewrite Hf'. cbn [Z.eqb]. rewrite Hs. reflexivity.
Qed.

(** Lengths 4 and -5: both calls ask for both files. *)
Lemma SizeInBytesWith_sum_is_sentinel_odd :
  SizeInBytesWith twoFiles (freshOver oddLengths)
    = (Ok (-1), freshOver oddLengths, ["_1.cfs"; "_1.si"]%string) /\
  SizeInBytesWith twoFiles (set_sizeInBytes (-1) (freshOver oddLengths))
    = (Ok (-1), freshOver oddLengths, ["_1.cfs"; "_1.si"]%string).
Proof.
  exact (SizeInBytesWith_sum_is_sentinel twoFiles (freshOver oddLengths)
           ["_1.cfs"; "_1.si"]%string ["_1.cfs"; "_1.si"]%string
           eq_refl eq_refl eq_refl eq_refl).
Defined.

(** Two files of 5 bytes: the first call asks for both and caches 10,
    the second asks nothing. *)
Lemma SizeInBytesWith_computes_then_caches_two :
  SizeInBytesWith twoFiles fresh
    = (Ok 10, set_sizeInBytes 10 fresh, ["_1.cfs"; "_1.si"]%string) /\
  SizeInBytesWith twoFiles (set_sizeInBytes 10 fresh)
    = (Ok 10, set_sizeInBytes 10 fresh, []).
Proof.
  destruct (SizeInBytesWith_computes_then_caches twoFiles fresh
              ["_1.cfs"; "_1.si"]%string 10 ["_1.cfs"; "_1.si"]%string
              eq_refl eq_refl eq_refl) as [A B].
  split; [exact A|]. apply B. intros H. discriminate H.
Defined.

(** The second length cannot be read: the error comes back after two
    queries and the record is untouched. *)
Lemma SizeInBytesWith_error_keeps_unset_si :
  SizeInBytesWith twoFiles (freshOver siUnreadable)
  = (Err "read error"%string, freshOver siUnreadable, ["_1.cfs"; "_1.si"]%string).
Proof.
  exact (SizeInBytesWith_error_keeps_unset twoFiles (freshOver siUnreadable)
           ["_1.cfs"; "_1.si"]%string "read error"%string ["_1.cfs"; "_1.si"]%string
           eq_refl eq_refl eq_refl).
Defined.

(** Three files, the second unreadable: the third is never asked for. *)
Lemma sumFileLengths_first_failure_si :
  sumFileLengths siUnreadable
    (["_1.cfs"%string] ++ "_1.si"%string :: ["_1.del"%string]) 0
  = (inr "read error"%string, ["_1.cfs"%string] ++ ["_1.si"%string]).
Proof.
  apply (sumFileLengths_first_failure siUnreadable ["_1.cfs"%string] "_1.si"%string
           ["_1.del"%string] "read error"%string 0).
  - apply Forall_cons. split; [exists 5; reflexivity | apply Forall_nil_2].
  - reflexivity.
Defined.

(** Two files of 5 bytes each. *)
Lemma sumFileLengths_total_two :
  sumFileLengths (Dir tenDocs) ["_1.cfs"; "_1.si"]%string 0
  = (inl (0 + totalLength (Dir tenDocs) ["_1.cfs"; "_1.si"]%string),
     ["_1.cfs"; "_1.si"]%string).
Proof.
  apply (sumFileLengths_total (Dir tenDocs) ["_1.cfs"; "_1.si"]%string 0).
  - apply Forall_cons. split.
    + exists 5. split; [reflexivity | intros H; discriminate H].
    + apply Forall_cons. split; [|apply Forall_nil_2].
      exists 5. split; [reflexivity | intros H; discriminate H].
  - intros H. discriminate H.
  - intros H. discriminate H.
Defined.

End SizeInBytesLoopScenarios.

(** ** Two calls of [SizeInBytes], and a failing directory *)

Section SizeInBytesCalls.
Import Go CommitInfo Samples SizeSamples.






End SizeInBytesCalls.

(** ** Queries for a field bound to a nil producer *)

Section NilProducerQueries.
Import Go Field Producers Samples.

(** C8: on the code, the doc-values constructor over note, price and
    stock, the load for stock failing, returns a reader in which stock
    has no producer but is bound to a nil one; each of [Numeric],
    [Binary], [Sorted] and [SortedSet] for stock then panics on the nil
    producer instead of answering [(nil, nil)], while note, which is not
    a key at all, is answered [(nil, nil)]. *)
Theorem docvalues_nil_producer_query_panics :
  DocValuesReader.newPerFieldDocValuesReader brokenFails
      (bareField "note" :: priceThenStock) nothingOpen
    = (Ok noteReader, {| opened := ["Lucene45_0"]; closed := [] |}) /\
  DocValuesReader.fields noteReader !! "stock" = Some None /\
  DocValuesReader.Numeric failingQuery noteReader (storedField "stock" "Broken" "0")
    = Panic NilDereference /\
  DocValuesReader.Binary failingQuery noteReader (storedField "stock" "Broken" "0")
    = Panic NilDereference /\
  DocValuesReader.Sorted failingQuery noteReader (storedField "stock" "Broken" "0")
    = Panic NilDereference /\
  DocValuesReader.SortedSet failingQuery noteReader (storedField "stock" "Broken" "0")
    = Panic NilDereference /\
  DocValuesReader.fields noteReader !! "note" = None /\
  DocValuesReader.Numeric failingQuery noteReader (bareField "note") = Ok None.
Proof. vm_compute. repeat split. Qed.

End NilProducerQueries.
